(** * mate_strategy: schema validation, example synthesis and strategy composition

    Shallow embedding of [mate_strategy/schema/__init__.py] (class [Schema]),
    [mate_strategy/rules/predefined.py], [mate_strategy/rules/factories/excerptish.py]
    and [mate_strategy/strategy/__init__.py] ([BaseStrategy], [Fallback],
    [AutoRepair]).  Python exceptions are the [RExn] case of [result]. *)

From Stdlib Require Import String Ascii List ZArith QArith Bool Lia Setoid.
Import ListNotations.
Open Scope string_scope.
Set Warnings "-register-all".

(* ================================================================== *)
(** ** Python runtime fragments *)

(** Outcome of a Python computation: a value, or a raised exception
    (named by its class). *)
Inductive result (A : Type) : Type :=
| ROk (a : A)
| RExn (e : string).
Arguments ROk {A} a.
Arguments RExn {A} e.

Definition rbind {A B} (m : result A) (k : A -> result B) : result B :=
  match m with
  | ROk a => k a
  | RExn e => RExn e
  end.

Declare Scope result_scope.
Notation "x <- m ;; k" := (rbind m (fun x => k))
  (at level 61, m at next level, right associativity) : result_scope.
Open Scope result_scope.

(** JSON-like Python values as they reach the validator. *)
Inductive value : Type :=
| VNone
| VBool (b : bool)
| VInt (z : Z)
| VFloat (q : Q)
| VStr (s : string)
| VList (l : list value)
| VTuple (l : list value)
| VDict (kv : list (string * value)).

(** A Python [dict] with string keys, in insertion order. *)
Definition dict := list (string * value).

(** [key in d] *)
Definition dict_mem (k : string) (d : dict) : bool :=
  existsb (fun p => String.eqb (fst p) k) d.

(** [d[k]] (the key occurs at most once in a Python dict). *)
Fixpoint dict_get (k : string) (d : dict) : option value :=
  match d with
  | [] => None
  | (k', v) :: d' => if String.eqb k' k then Some v else dict_get k d'
  end.

(** [d[k] = v]: an existing key keeps its position, a new key goes last. *)
Fixpoint dict_set (d : dict) (k : string) (v : value) : dict :=
  match d with
  | [] => [(k, v)]
  | (k', v') :: d' =>
      if String.eqb k' k then (k', v) :: d' else (k', v') :: dict_set d' k v
  end.

(** [type(v).__name__] *)
Definition type_name (v : value) : string :=
  match v with
  | VNone => "NoneType" | VBool _ => "bool" | VInt _ => "int"
  | VFloat _ => "float" | VStr _ => "str" | VList _ => "list"
  | VTuple _ => "tuple" | VDict _ => "dict"
  end.

(** The double-quote character and [f'"{s}"']. *)
Definition dq : string := String (ascii_of_nat 34) EmptyString.
Definition quoted (s : string) : string := dq ++ s ++ dq.

(** Decimal rendering of [str(n)] for naturals and integers. *)
Fixpoint digits_aux (fuel n : nat) (acc : string) : string :=
  match fuel with
  | O => acc
  | S f =>
      let acc' := String (ascii_of_nat (48 + n mod 10)) acc in
      if Nat.ltb n 10 then acc' else digits_aux f (n / 10) acc'
  end.
Definition str_nat (n : nat) : string := digits_aux (S n) n EmptyString.
Definition str_Z (z : Z) : string :=
  if (z <? 0)%Z then "-" ++ str_nat (Z.to_nat (- z)) else str_nat (Z.to_nat z).

(** [sep.join(parts)] *)
Definition str_join (sep : string) (parts : list string) : string :=
  String.concat sep parts.

(** Numbers Python orders against an [int] ([bool] is an [int]). *)
Definition py_number (v : value) : option Q :=
  match v with
  | VInt z => Some (inject_Z z)
  | VBool b => Some (if b then 1 else 0)%Q
  | VFloat q => Some q
  | _ => None
  end.

(** [lo <= v] for an integer [lo]; any non-number raises [TypeError]. *)
Definition py_le_Z_l (lo : Z) (v : value) : result bool :=
  match py_number v with
  | Some q => ROk (Qle_bool (inject_Z lo) q)
  | None => RExn "TypeError"
  end.

(** [v <= hi] for an integer [hi]. *)
Definition py_le_Z_r (v : value) (hi : Z) : result bool :=
  match py_number v with
  | Some q => ROk (Qle_bool q (inject_Z hi))
  | None => RExn "TypeError"
  end.

(* ================================================================== *)
(** ** Rules ([mate_strategy/rules]) *)

(** A concrete [Rule] subclass: its three class methods. *)
Record rule : Type := MkRule {
  r_describe : string;
  r_example : value;
  r_validate : value -> result bool
}.

(** [Interval[lo, hi]] from [rules/predefined.py]:
    [validate] is the chained comparison [lo <= v <= hi]. *)
Definition Interval (lo hi : Z) : rule := {|
  r_describe := "number between " ++ str_Z lo ++ " and " ++ str_Z hi;
  r_example := VInt ((lo + hi) / 2);
  r_validate := fun v =>
    b <- py_le_Z_l lo v ;;
    if b then py_le_Z_r v hi else ROk false
|}.

(** [NaturalNumber] from [rules/predefined.py]. *)
Definition NaturalNumber : rule := {|
  r_describe := "integer (>= 1)";
  r_example := VInt 3;
  r_validate := fun v =>
    match v with
    | VInt z => ROk (1 <=? z)%Z
    | VBool b => ROk b
    | _ => ROk false
    end
|}.

(* ================================================================== *)
(** ** Type descriptors and schemas *)

(** A cross-field constraint declared with [@constraint(path, desc, fix=...)]:
    the decorated predicate and the (in-place) example fixer. *)
Record constr : Type := MkConstr {
  c_path : string;
  c_desc : string;
  c_pred : dict -> result bool;
  c_fix : dict -> result dict
}.

(** The annotations the validator dispatches on.  [TList] is [List[T]],
    [TListBare] a bare [list] (element type [Any]); [TUnion] is a
    [typing.Union] (an [Optional[T]] is [TUnion [T; TNoneType]]). *)
Inductive ty : Type :=
| TStr | TInt | TFloat | TBool | TNoneType | TAny
| TRule (r : rule)
| TList (e : ty)
| TListBare
| TTuple (ts : list ty)
| TUnion (ts : list ty)
| TSchema (s : schema)
(** A dataclass [Schema] subclass: name, fields in declaration order,
    [_declared_constraints] and [__example_overrides__]. *)
with schema : Type :=
| MkSchema (name : string) (fields : list (string * ty))
    (constraints : list constr) (overrides : list (string * value)).

Definition sch_fields (s : schema) : list (string * ty) :=
  match s with MkSchema _ fs _ _ => fs end.
Definition sch_constraints (s : schema) : list constr :=
  match s with MkSchema _ _ cs _ => cs end.
Definition sch_overrides (s : schema) : list (string * value) :=
  match s with MkSchema _ _ _ ov => ov end.

Definition is_none_ty (t : ty) : bool :=
  match t with TNoneType => true | _ => false end.

(** [Schema._is_optional]: a two-member union one of whose members is
    [NoneType]. *)
Definition is_optional (t : ty) : bool :=
  match t with
  | TUnion [a; b] => is_none_ty a || is_none_ty b
  | _ => false
  end.

(* ================================================================== *)
(** ** Validation ([Schema._validate_value], [validate_with_error]) *)

Definition starts_with_dq (s : string) : bool :=
  match s with
  | String c _ => Ascii.eqb c (ascii_of_nat 34)
  | EmptyString => false
  end.

(** [s[1:]] *)
Definition drop1 (s : string) : string :=
  match s with
  | String _ s' => s'
  | EmptyString => EmptyString
  end.

(** [_prepend_outer_path] (inner helper of [_validate_value], step 6). *)
Definition prepend_outer_path (full msg : string) : string :=
  if starts_with_dq msg then
    match String.index 1 dq msg with
    | Some e =>
        let inner_path := substring 1 (e - 1) msg in
        if String.prefix (full ++ ".") inner_path then msg
        else quoted (full ++ "." ++ inner_path)
             ++ substring (e + 1) (String.length msg - (e + 1)) msg
    | None => msg
    end
  else msg.

(** The error pair of a nested schema, rewritten with the outer path. *)
Definition nest_error (full : string) (err : string * string) : string * string :=
  let '(err_msg, exp_msg) := err in
  (if starts_with_dq err_msg then dq ++ full ++ "." ++ drop1 err_msg else err_msg,
   prepend_outer_path full exp_msg).

(** [None] is success, [Some (short, long)] a failure. *)
Definition verr := option (string * string).

(** [validate_cross]: first violated constraint in declaration order. *)
Fixpoint validate_cross (cs : list constr) (data : dict) : result verr :=
  match cs with
  | [] => ROk None
  | c :: cs' =>
      b <- c_pred c data ;;
      if b then validate_cross cs' data
      else ROk (Some (quoted (c_path c) ++ " violates constraint.",
                      quoted (c_path c) ++ " " ++ c_desc c))
  end.

(** The unexpected-key scan of [validate_with_error]. *)
Fixpoint unexpected_key (fields : list (string * ty)) (keys : list string) : verr :=
  match keys with
  | [] => None
  | k :: ks =>
      if existsb (fun p => String.eqb (fst p) k) fields then unexpected_key fields ks
      else Some (quoted k ++ " is not a valid field.", quoted k ++ " is not expected here.")
  end.

(** The loops of [_validate_value] and [validate_with_error], each taking
    the recursive check as an argument. *)

(** [for i, v in enumerate(val): err = ...; if err: return err] *)
Fixpoint list_loop (vv : string -> value -> result verr) (key : string)
    (i : nat) (l : list value) : result verr :=
  match l with
  | [] => ROk None
  | v :: l' =>
      err <- vv (key ++ "[" ++ str_nat i ++ "]") v ;;
      match err with
      | Some _ => ROk err
      | None => list_loop vv key (S i) l'
      end
  end.

(** [for i, (v, sub_t) in enumerate(zip(val, parts)): ...] *)
Fixpoint tuple_loop (vv : string -> value -> ty -> result verr) (key : string)
    (i : nat) (l : list value) (ts : list ty) {struct ts} : result verr :=
  match l, ts with
  | v :: l', t :: ts' =>
      err <- vv (key ++ "[" ++ str_nat i ++ "]") v t ;;
      match err with
      | Some _ => ROk err
      | None => tuple_loop vv key (S i) l' ts'
      end
  | _, _ => ROk None
  end.

(** [for alt in get_args(typ): ...]; [parts] collects the long errors in
    reverse order. *)
Fixpoint union_loop (vv : ty -> result verr) (full : string)
    (ts : list ty) (parts : list string) : result verr :=
  match ts with
  | [] => ROk (Some (quoted full ++ " matches none of the allowed alternatives.",
                     str_join " or " (List.rev parts)))
  | alt :: ts' =>
      err <- vv alt ;;
      match err with
      | None => ROk None
      | Some (_, exp) => union_loop vv full ts' (exp :: parts)
      end
  end.

(** [for name, typ in cls._field_types().items(): ...] *)
Fixpoint field_loop (vv : string -> value -> ty -> result verr) (data : dict)
    (fs : list (string * ty)) : result verr :=
  match fs with
  | [] => ROk None
  | (name, typ) :: fs' =>
      match dict_get name data with
      | None =>
          if is_optional typ then field_loop vv data fs'
          else ROk (Some (quoted name ++ " is missing.", quoted name ++ " must be present."))
      | Some v =>
          err <- vv name v typ ;;
          match err with
          | Some _ => ROk err
          | None => field_loop vv data fs'
          end
      end
  end.

Definition list_error (full : string) (val : value) : verr :=
  Some (quoted full ++ " must be a list, got " ++ type_name val, quoted full ++ " must be list").

Fixpoint validate_value (key : string) (val : value) (typ : ty) (prefix : string)
  {struct typ} : result verr :=
  let full := prefix ++ key in
  match typ with
  (* 1. scalar Rule *)
  | TRule r =>
      b <- r_validate r val ;;
      if b then ROk None
      else ROk (Some (quoted full ++ " is invalid.", quoted full ++ " " ++ r_describe r))
  (* 2. list *)
  | TList e =>
      match val with
      | VList l => list_loop (fun k v => validate_value k v e prefix) key O l
      | _ => ROk (list_error full val)
      end
  | TListBare =>
      (* element type [Any]: every element passes *)
      match val with
      | VList _ => ROk None
      | _ => ROk (list_error full val)
      end
  (* 3. tuple *)
  | TTuple ts =>
      let check (l : list value) : result verr :=
        if Nat.eqb (List.length l) (List.length ts) then
          tuple_loop (fun k v t => validate_value k v t prefix) key O l ts
        else ROk (Some (quoted full ++ " must have length " ++ str_nat (List.length ts)
                        ++ ", got " ++ str_nat (List.length l),
                        quoted full ++ " must be length-" ++ str_nat (List.length ts)
                        ++ " tuple")) in
      match val with
      | VList l => check l
      | VTuple l => check l
      | _ => ROk (Some (quoted full ++ " must be a tuple, got " ++ type_name val,
                        quoted full ++ " must be tuple"))
      end
  (* 4. Optional[T]  and  5. Union[...] *)
  | TUnion ts =>
      match ts with
      | [a; b] =>
          if is_none_ty a || is_none_ty b then
            match val with
            | VNone => ROk None
            | _ => if is_none_ty a then validate_value key val b prefix
                   else validate_value key val a prefix
            end
          else union_loop (fun alt => validate_value key val alt prefix) full ts []
      | _ => union_loop (fun alt => validate_value key val alt prefix) full ts []
      end
  (* 6. nested Schema *)
  | TSchema s =>
      match val with
      | VDict d =>
          r <- validate_with_error s d ;;
          match r with
          | None => ROk None
          | Some err => ROk (Some (nest_error full err))
          end
      | _ => ROk (Some (quoted full ++ " must be an object",
                        quoted full ++ " must be an object"))
      end
  (* 7. primitives *)
  | TStr =>
      match val with
      | VStr _ => ROk None
      | _ => ROk (Some (quoted full ++ " must be string", quoted full ++ " must be string"))
      end
  | TInt =>
      (* [isinstance(val, int)] *)
      match val with
      | VInt _ | VBool _ => ROk None
      | _ => ROk (Some (quoted full ++ " must be integer", quoted full ++ " must be integer"))
      end
  | TFloat =>
      (* [isinstance(val, (int, float))] *)
      match val with
      | VInt _ | VBool _ | VFloat _ => ROk None
      | _ => ROk (Some (quoted full ++ " must be float", quoted full ++ " must be float"))
      end
  | TBool =>
      match val with
      | VBool _ => ROk None
      | _ => ROk (Some (quoted full ++ " must be boolean", quoted full ++ " must be boolean"))
      end
  | TNoneType | TAny => ROk None
  end

(** [Schema.validate_with_error]: [None] stands for [(True,)] and
    [Some (short, long)] for [(False, short, long)]. *)
with validate_with_error (s : schema) (data : dict) {struct s} : result verr :=
  match s with
  | MkSchema _ fields cs _ =>
      match unexpected_key fields (List.map fst data) with
      | Some err => ROk (Some err)
      | None =>
          err <- field_loop (fun n v t => validate_value n v t "") data fields ;;
          match err with
          | Some _ => ROk err
          | None => validate_cross cs data
          end
      end
  end.

(* ================================================================== *)
(** ** Example synthesis ([_example_for_type], [Schema.example]) *)

(** [path.split(".")] *)
Fixpoint split_dot_aux (s : string) (cur : string) : list string :=
  match s with
  | EmptyString => [cur]
  | String c s' =>
      if Ascii.eqb c "."%char then cur :: split_dot_aux s' EmptyString
      else split_dot_aux s' (cur ++ String c EmptyString)
  end.
Definition split_dot (s : string) : list string := split_dot_aux s EmptyString.

(** [_apply_path]: [obj[head] = value] at the end of the path, and
    [obj.setdefault(head, {})] on the way.  A non-dict [w] met on the way
    is passed to the recursive call: with one part left, [w[part] = value]
    raises [TypeError]; with more, [w] has no [setdefault] and raises
    [AttributeError]. *)
Fixpoint apply_parts (obj : dict) (parts : list string) (v : value) : result dict :=
  match parts with
  | [] => ROk obj
  | [head] => ROk (dict_set obj head v)
  | head :: tail =>
      match dict_get head obj with
      | None =>
          sub <- apply_parts [] tail v ;;
          ROk (dict_set obj head (VDict sub))
      | Some (VDict d) =>
          sub <- apply_parts d tail v ;;
          ROk (dict_set obj head (VDict sub))
      | Some _ =>
          match tail with
          | [_] => RExn "TypeError"
          | _ => RExn "AttributeError"
          end
      end
  end.

Definition apply_path (obj : dict) (path : string) (v : value) : result dict :=
  apply_parts obj (split_dot path) v.

(** [for _, _, _, fix in _declared_constraints: fix(ex)] *)
Fixpoint apply_fixes (cs : list constr) (ex : dict) : result dict :=
  match cs with
  | [] => ROk ex
  | c :: cs' => ex' <- c_fix c ex ;; apply_fixes cs' ex'
  end.

(** [for path, value in __example_overrides__.items(): _apply_path(...)] *)
Fixpoint apply_overrides (ov : list (string * value)) (ex : dict) : result dict :=
  match ov with
  | [] => ROk ex
  | (path, v) :: ov' => ex' <- apply_path ex path v ;; apply_overrides ov' ex'
  end.

(** [[cls._example_for_type(t) for t in get_args(typ)]] *)
Fixpoint examples_loop (ex : ty -> result value) (ts : list ty) : result (list value) :=
  match ts with
  | [] => ROk []
  | t :: ts' => v <- ex t ;; vs <- examples_loop ex ts' ;; ROk (v :: vs)
  end.

(** [{n: cls._example_for_type(t) for n, t in cls._field_types().items()}] *)
Fixpoint fields_example (ex : ty -> result value) (fs : list (string * ty)) : result dict :=
  match fs with
  | [] => ROk []
  | (n, t) :: fs' => v <- ex t ;; rest <- fields_example ex fs' ;; ROk ((n, v) :: rest)
  end.

Fixpoint example_for_type (t : ty) {struct t} : result value :=
  match t with
  | TRule r => ROk (r_example r)
  | TList e => v <- example_for_type e ;; ROk (VList [v])
  | TListBare => ROk (VList [VStr "<typing.Any>"])
  | TTuple ts => vs <- examples_loop example_for_type ts ;; ROk (VList vs)
  | TUnion ts =>
      match ts with
      | [a; b] =>
          if is_none_ty a || is_none_ty b then
            (* Optional: the non-None member *)
            if is_none_ty a then example_for_type b else example_for_type a
          else example_for_type a
      | a :: _ => example_for_type a
      | [] => RExn "IndexError"
      end
  | TSchema s => d <- schema_example s ;; ROk (VDict d)
  | TStr => ROk (VStr "example")
  | TInt => ROk (VInt 42)
  | TFloat => ROk (VFloat (314 # 100))
  | TBool => ROk (VBool true)
  | TNoneType => ROk (VStr "<class 'NoneType'>")
  | TAny => ROk (VStr "<typing.Any>")
  end

(** [Schema.example]: per-field examples, then every constraint's fix in
    declaration order, then the path overrides. *)
with schema_example (s : schema) {struct s} : result dict :=
  match s with
  | MkSchema _ fields cs ov =>
      ex <- fields_example example_for_type fields ;;
      ex <- apply_fixes cs ex ;;
      apply_overrides ov ex
  end.

(* ================================================================== *)
(** ** The fuzzy-excerpt rule ([rules/factories/excerptish.py]) *)

Definition is_word_char (c : ascii) : bool :=
  let n := nat_of_ascii c in
  (Nat.leb 48 n && Nat.leb n 57) || (Nat.leb 65 n && Nat.leb n 90)
  || (Nat.leb 97 n && Nat.leb n 122) || Nat.eqb n 95.

Definition lower_char (c : ascii) : ascii :=
  let n := nat_of_ascii c in
  if Nat.leb 65 n && Nat.leb n 90 then ascii_of_nat (n + 32) else c.

(** [re.sub(r"\W+", " ", s).lower()] on ASCII text: every maximal run of
    non-word characters becomes one space. *)
Fixpoint normalize_aux (s : string) (in_run : bool) : string :=
  match s with
  | EmptyString => EmptyString
  | String c s' =>
      if is_word_char c then String (lower_char c) (normalize_aux s' false)
      else if in_run then normalize_aux s' true
      else String " "%char (normalize_aux s' true)
  end.
Definition normalize (s : string) : string := normalize_aux s false.

Definition is_py_space (c : ascii) : bool :=
  let n := nat_of_ascii c in
  Nat.eqb n 32 || (Nat.leb 9 n && Nat.leb n 13).

(** [not v.strip()] *)
Fixpoint is_blank (s : string) : bool :=
  match s with
  | EmptyString => true
  | String c s' => is_py_space c && is_blank s'
  end.

(** [[src_clean[i:i + window] for i in range(0, len(src_clean), stride)]] *)
Fixpoint windows_from (fuel i : nat) (src : string) (window stride : nat) : list string :=
  match fuel with
  | O => []
  | S f =>
      if Nat.ltb i (String.length src)
      then substring i window src :: windows_from f (i + stride) src window stride
      else []
  end.

Definition newline : string := String (ascii_of_nat 10) EmptyString.

Section Excerptish.
(** [difflib.SequenceMatcher(None, cand, chunk).ratio() >= threshold]:
    a floating-point similarity test, kept abstract. *)
Variable similar : string -> string -> bool.

(** [excerptish_rule(source, label, window, stride)]; [range] with a
    zero step raises [ValueError]. *)
Definition excerptish_rule (source : string) (label : option string)
    (window stride : nat) : result rule :=
  let src_clean := normalize source in
  if Nat.eqb stride 0 then RExn "ValueError" else
  let windows := windows_from (S (String.length src_clean)) 0 src_clean window stride in
  let lbl := match label with Some l => if String.eqb l "" then "label" else l | None => "label" end in
  ROk {|
    r_describe :=
      "list of matching passages." ++ newline
      ++ "* ** Exhaustive **: include *everything* that contains information about *"
      ++ lbl ++ "*." ++ newline
      ++ "  - It is better to be redundant than to lose information." ++ newline
      ++ "  - It is better to keep too much than too little." ++ newline
      ++ "  - Keep passages that are necessary to understand information about the *"
      ++ lbl ++ "*" ++ newline
      ++ "    even if they don't mention " ++ lbl ++ "." ++ newline
      ++ "    Make sure to provide the complete context for each passage." ++ newline
      ++ "* Do *not* include unrelated passages or sentences." ++ newline;
    r_example :=
      VList [VStr "... the grey fox jumped ...";
             VStr "... ad minim veniam, quis nostrud  ..."];
    r_validate := fun v =>
      match v with
      | VStr s =>
          if is_blank s then ROk false else
          let cand := normalize s in
          if Nat.ltb (String.length cand) 30 then ROk false
          else ROk (existsb (similar cand) windows)
      | _ => ROk false
      end
  |}.
End Excerptish.

(* ================================================================== *)
(** ** Strategies ([mate_strategy/strategy/__init__.py]) *)

(** [Prompt(template, schema)] *)
Record prompt : Type := MkPrompt {
  template : string;
  p_schema : schema
}.

(** The [**tmpl] keyword arguments of a call. *)
Definition tmpl := list (string * string).

(** The collaborators a strategy reaches but does not own: the prompt text
    renderer ([Prompt.render], which formats the template and appends
    [schema.prompt()]), the repair text ([Schema.repair_prompt]) and the
    text generators: [oracle a k txt] is the reply of the [ask_ai] callable
    [a] to its [k]-th call (from 0), given the prompt text [txt]. *)
Class Collab : Type := {
  render : prompt -> tmpl -> result string;
  repair_text : schema -> dict -> string;
  oracle : nat -> nat -> string -> dict
}.

(** Observable events: a generator call (callable, prompt text, heap cell
    of the fresh reply), a strategy object being invoked, and a repair
    round of [AutoRepair._repair] at a given remaining depth. *)
Inductive event : Type :=
| EAsk (a : nat) (txt : string) (loc : nat)
| ECall (id : nat)
| ERepair (depth : nat).

(** The heap of reply objects (cells hold Python dicts; a cell index is the
    object's identity) and the event trace. *)
Record st : Type := MkSt {
  heap : list dict;
  trace : list event
}.

(** State and exception monad. *)
Definition M (A : Type) : Type := st -> st * result A.

Definition mret {A} (a : A) : M A := fun s => (s, ROk a).
Definition mbind {A B} (m : M A) (k : A -> M B) : M B :=
  fun s => match m s with
           | (s', ROk a) => k a s'
           | (s', RExn e) => (s', RExn e)
           end.
Definition lift {A} (r : result A) : M A := fun s => (s, r).

Declare Scope m_scope.
Notation "x <-- m ;; k" := (mbind m (fun x => k))
  (at level 61, m at next level, right associativity) : m_scope.
Open Scope m_scope.

Definition emit (e : event) : M unit :=
  fun s => (MkSt (heap s) (trace s ++ [e]), ROk tt).

Definition alloc (d : dict) : M nat :=
  fun s => (MkSt (heap s ++ [d]) (trace s), ROk (List.length (heap s))).

Definition read (l : nat) : M dict :=
  fun s => match nth_error (heap s) l with
           | Some d => (s, ROk d)
           | None => (s, RExn "IndexError")
           end.

Fixpoint update_nth {A} (l : list A) (n : nat) (x : A) : list A :=
  match l, n with
  | [], _ => []
  | _ :: l', O => x :: l'
  | y :: l', S n' => y :: update_nth l' n' x
  end.

Definition write (l : nat) (d : dict) : M unit :=
  fun s => (MkSt (update_nth (heap s) l d) (trace s), ROk tt).

Fixpoint count_asks (a : nat) (tr : list event) : nat :=
  match tr with
  | [] => O
  | EAsk a' _ _ :: tr' => if Nat.eqb a a' then S (count_asks a tr') else count_asks a tr'
  | _ :: tr' => count_asks a tr'
  end.

(** Strategies as built by the caller; [id] is the object's identity. *)
Inductive strategy : Type :=
| SBase (id : nat) (p : prompt) (ask_ai : nat) (retries : nat)
| SFallback (id : nat) (inner fallback : strategy)
| SAutoRepair (id : nat) (inner : strategy) (depth : nat) (mode : string)
    (repair_retries : nat).

(** The [prompt] attribute ([Fallback] and [AutoRepair] expose the inner one). *)
Fixpoint prompt_of (s : strategy) : prompt :=
  match s with
  | SBase _ p _ _ => p
  | SFallback _ i _ => prompt_of i
  | SAutoRepair _ i _ _ _ => prompt_of i
  end.

(** [self.inner.ask_ai]: only a [BaseStrategy] has this attribute. *)
Definition ask_of (s : strategy) : result nat :=
  match s with
  | SBase _ _ a _ => ROk a
  | _ => RExn "AttributeError"
  end.

(** [repair_txt.replace("{", "{{").replace("}", "}}")] *)
Fixpoint escape_braces (s : string) : string :=
  match s with
  | EmptyString => EmptyString
  | String c s' =>
      if Ascii.eqb c "{"%char then String c (String c (escape_braces s'))
      else if Ascii.eqb c "}"%char then String c (String c (escape_braces s'))
      else String c (escape_braces s')
  end.

(** [(reply, ok, err, exp)]; the reply is a heap cell. *)
Definition outcome : Type := (nat * bool * option string * option string)%type.

Section Strategies.
Context {C : Collab}.

(** [self.ask_ai(txt)]: the reply is a fresh object. *)
Definition ask (a : nat) (txt : string) : M nat :=
  fun s =>
    let d := oracle a (count_asks a (trace s)) txt in
    let l := List.length (heap s) in
    (MkSt (heap s ++ [d]) (trace s ++ [EAsk a txt l]), ROk l).

(** [prompt.validate(reply)] *)
Definition validate_loc (p : prompt) (l : nat) : M verr :=
  d <-- read l ;; lift (validate_with_error (p_schema p) d).

(** The body of the [for i in range(self.retries + 1)] loop; [k] is the
    number of attempts left after this one. *)
Fixpoint base_loop (p : prompt) (a : nat) (txt : string) (k : nat) : M outcome :=
  l <-- ask a txt ;;
  v <-- validate_loc p l ;;
  match v with
  | None => mret (l, true, None, None)
  | Some (e, x) =>
      match k with
      | O => mret (l, false, Some e, Some x)
      | S k' => base_loop p a txt k'
      end
  end.

(** [BaseStrategy.__call__] *)
Definition run_base (p : prompt) (a : nat) (r : nat) (tm : tmpl) : M outcome :=
  txt <-- lift (render p tm) ;;
  base_loop p a txt r.

(** [AutoRepair._repair]: [repl] is the working copy. *)
Fixpoint repair (self_inner : strategy) (p : prompt) (rr : nat) (mode : string)
    (tm : tmpl) (repl : nat) (depth : nat) : M bool :=
  match depth with
  | O => mret false
  | S d' =>
      v <-- validate_loc p repl ;;
      match v with
      | None => mret true
      | Some _ =>
          cur <-- read repl ;;
          let fix_txt := repair_text (p_schema p) cur in
          repair_txt <--
            (if String.eqb mode "sub" then mret fix_txt
             else t <-- lift (render p tm) ;;
                  mret (t ++ newline ++ "---" ++ newline ++ "FIX:" ++ newline ++ fix_txt)) ;;
          a <-- lift (ask_of self_inner) ;;
          _ <-- emit (ERepair depth) ;;
          o <-- run_base (MkPrompt (escape_braces repair_txt) (p_schema p)) a rr [] ;;
          let '(new_reply, ok2, _, _) := o in
          if ok2 then
            nd <-- read new_reply ;;
            _ <-- write repl nd ;;
            mret true
          else repair self_inner p rr mode tm repl d'
      end
  end.

(** [__call__] of the three strategies. *)
Fixpoint run (s : strategy) (tm : tmpl) : M outcome :=
  match s with
  | SBase id p a r =>
      _ <-- emit (ECall id) ;;
      run_base p a r tm
  | SFallback id i f =>
      _ <-- emit (ECall id) ;;
      o <-- run i tm ;;
      let '(_, ok, _, _) := o in
      if ok then mret o else run f tm
  | SAutoRepair id i d mode rr =>
      _ <-- emit (ECall id) ;;
      let runner_prompt := prompt_of i in
      o <-- run i tm ;;
      let '(reply, ok, _, _) := o in
      if ok || Nat.eqb d 0 then mret o
      else
        fixed <-- (cur <-- read reply ;; alloc cur) ;;
        b <-- repair i runner_prompt rr mode tm fixed d ;;
        if b then mret (fixed, true, None, None) else mret o
  end.
End Strategies.

(* ================================================================== *)
(** ** Induction over type descriptors and schemas *)

Section TyInd.
Variables (P : ty -> Prop) (Q : schema -> Prop).
Hypotheses
  (HStr : P TStr) (HInt : P TInt) (HFloat : P TFloat) (HBool : P TBool)
  (HNone : P TNoneType) (HAny : P TAny)
  (HRule : forall r, P (TRule r))
  (HList : forall e, P e -> P (TList e))
  (HListBare : P TListBare)
  (HTuple : forall ts, Forall P ts -> P (TTuple ts))
  (HUnion : forall ts, Forall P ts -> P (TUnion ts))
  (HSchema : forall s, Q s -> P (TSchema s))
  (HMk : forall name fs cs ov, Forall (fun p => P (snd p)) fs -> Q (MkSchema name fs cs ov)).

Fixpoint ty_ind' (t : ty) : P t :=
  match t with
  | TStr => HStr | TInt => HInt | TFloat => HFloat | TBool => HBool
  | TNoneType => HNone | TAny => HAny
  | TRule r => HRule r
  | TList e => HList e (ty_ind' e)
  | TListBare => HListBare
  | TTuple ts =>
      HTuple ts ((fix go (ts : list ty) : Forall P ts :=
                    match ts with
                    | [] => Forall_nil P
                    | t :: ts' => Forall_cons t (ty_ind' t) (go ts')
                    end) ts)
  | TUnion ts =>
      HUnion ts ((fix go (ts : list ty) : Forall P ts :=
                    match ts with
                    | [] => Forall_nil P
                    | t :: ts' => Forall_cons t (ty_ind' t) (go ts')
                    end) ts)
  | TSchema s => HSchema s (schema_ind' s)
  end
with schema_ind' (s : schema) : Q s :=
  match s with
  | MkSchema name fs cs ov =>
      HMk name fs cs ov
        ((fix go (fs : list (string * ty)) : Forall (fun p => P (snd p)) fs :=
            match fs with
            | [] => Forall_nil _
            | (n, t) :: fs' => Forall_cons (n, t) (ty_ind' t) (go fs')
            end) fs)
  end.
End TyInd.

(** Schemas whose example needs no fix-up: every rule accepts its own
    example, unions have a member (as [typing.Union] requires), field names
    are distinct (as dataclass fields are), and no schema at any depth
    declares cross-field constraints or example overrides. *)
Inductive plain_ty : ty -> Prop :=
| plain_str : plain_ty TStr
| plain_int : plain_ty TInt
| plain_float : plain_ty TFloat
| plain_bool : plain_ty TBool
| plain_nonetype : plain_ty TNoneType
| plain_any : plain_ty TAny
| plain_rule r : r_validate r (r_example r) = ROk true -> plain_ty (TRule r)
| plain_list e : plain_ty e -> plain_ty (TList e)
| plain_listbare : plain_ty TListBare
| plain_tuple ts : Forall plain_ty ts -> plain_ty (TTuple ts)
| plain_union ts : ts <> [] -> Forall plain_ty ts -> plain_ty (TUnion ts)
| plain_schema_ty s : plain_schema s -> plain_ty (TSchema s)
with plain_schema : schema -> Prop :=
| plain_mk name fs :
    NoDup (List.map fst fs) -> Forall (fun p => plain_ty (snd p)) fs ->
    plain_schema (MkSchema name fs [] []).

(* ================================================================== *)
(** ** Reading traces *)

(** Heap cells of the generator replies, in call order. *)
Fixpoint ask_locs (tr : list event) : list nat :=
  match tr with
  | [] => []
  | EAsk _ _ l :: tr' => l :: ask_locs tr'
  | _ :: tr' => ask_locs tr'
  end.

(** Identities of the strategy objects invoked, in order. *)
Fixpoint calls_of (tr : list event) : list nat :=
  match tr with
  | [] => []
  | ECall i :: tr' => i :: calls_of tr'
  | _ :: tr' => calls_of tr'
  end.

(** Remaining depth at each repair round, in order. *)
Fixpoint repair_depths (tr : list event) : list nat :=
  match tr with
  | [] => []
  | ERepair d :: tr' => d :: repair_depths tr'
  | _ :: tr' => repair_depths tr'
  end.

(** [[d; d-1; ...; 1]] *)
Fixpoint countdown (d : nat) : list nat :=
  match d with
  | O => []
  | S d' => d :: countdown d'
  end.

(** [prompt.validate] of the object in cell [l]. *)
Definition validate_at (p : prompt) (s : st) (l : nat) : result verr :=
  match nth_error (heap s) l with
  | Some d => validate_with_error (p_schema p) d
  | None => RExn "IndexError"
  end.

(** The state right after a strategy object [id] is entered. *)
Definition enter (id : nat) (s : st) : st := MkSt (heap s) (trace s ++ [ECall id]).

(* ================================================================== *)
(** ** Concrete schemas and collaborators *)

(** Python's [int] view of an [int] or [bool]. *)
Definition py_int (v : value) : option Z :=
  match v with
  | VInt z => Some z
  | VBool b => Some (if b then 1 else 0)%Z
  | _ => None
  end.

(** The docstring's parity constraint on [y]:
    [return y % 2 if not x % 2 else not y % 2]. *)
Definition parity_pred (d : dict) : result bool :=
  match dict_get "x" d, dict_get "y" d with
  | Some vx, Some vy =>
      match py_int vx, py_int vy with
      | Some x, Some y => ROk (if Z.even x then Z.odd y else Z.even y)
      | _, _ => RExn "TypeError"
      end
  | _, _ => RExn "KeyError"
  end.

Definition parity_desc : string := "must be odd if x is even and vice versa".

(** [@constraint("y", "must be odd if x is even and vice versa")] without [fix]. *)
Definition parity_constraint : constr :=
  MkConstr "y" parity_desc parity_pred (fun d => ROk d).

(** The docstring's [MySchema] with [x: int], [y: int] and the parity constraint. *)
Definition ParitySchema : schema :=
  MkSchema "MySchema" [("x", TInt); ("y", TInt)] [parity_constraint] [].

(** A schema built from every kind of descriptor, with no constraints. *)
Definition Inner : schema :=
  MkSchema "Inner" [("k", TBool); ("w", TFloat)] [] [].
Definition Mixed : schema :=
  MkSchema "Mixed"
    [("x", TInt); ("y", TList TStr); ("z", TUnion [TRule (Interval 0 10); TNoneType]);
     ("t", TTuple [TBool; TFloat]); ("u", TUnion [TStr; TInt; TListBare]);
     ("n", TSchema Inner); ("c", TRule NaturalNumber)] [] [].

(** [x: Interval[0, 10]], as in the [AutoRepair] docstring. *)
Definition RandomNumbers : schema :=
  MkSchema "RandomNumbers" [("x", TRule (Interval 0 10))] [] [].

(** Text collaborators that echo the template, and a generator that
    answers [{"x": 50}] to every call. *)
Definition demo_collab : Collab := {|
  render := fun p _ => ROk (template p);
  repair_text := fun _ _ => "fix";
  oracle := fun _ _ _ => [("x", VInt 50)]
|}.

Definition demo_base : strategy := SBase 1 (MkPrompt "Give me a random number" RandomNumbers) 0 0.
Definition empty_st : st := MkSt [] [].

(** The errors of a reply [{x: 50}] to [RandomNumbers]. *)
Definition demo_short : string := quoted "x" ++ " is invalid.".
Definition demo_long : string := quoted "x" ++ " number between 0 and 10".

(** A declared field that [validate_with_error] lets through: absent and
    optional, or present with a value its type accepts. *)
Definition field_ok_with (vv : string -> value -> ty -> result verr) (data : dict)
    (p : string * ty) : Prop :=
  let '(n, t) := p in
  (dict_get n data = None /\ is_optional t = true)
  \/ exists v, dict_get n data = Some v /\ vv n v t = ROk None.

Definition field_ok (data : dict) : string * ty -> Prop :=
  field_ok_with (fun n v t => validate_value n v t "") data.

(** Every key of [data] names a declared field. *)
Definition keys_declared (fields : list (string * ty)) (data : dict) : Prop :=
  Forall (fun k => In k (List.map fst fields)) (List.map fst data).

(** Data for the examples: two violations, in [x] and in [y]. *)
Definition two_violations : dict := [("x", VStr "a"); ("y", VStr "b")].

(** A reply cell that exists and fails validation. *)
Definition invalid_at (p : prompt) (s : st) (l : nat) : Prop :=
  exists e, validate_at p s l = ROk (Some e).

(** A trace segment made only of calls to the generator [a]. *)
Definition only_asks (a : nat) (new : list event) : Prop :=
  Forall (fun ev => exists txt l, ev = EAsk a txt l) new.

(* ================================================================== *)
(** ** Further definitions: totality, nested paths, [OneOf], path extraction, [_temp_attrs] *)


(** Types whose validation cannot raise: every rule's [validate] and every
    constraint predicate, at any depth, returns a boolean on every input. *)
Inductive total_ty : ty -> Prop :=
| total_str : total_ty TStr
| total_int : total_ty TInt
| total_float : total_ty TFloat
| total_bool : total_ty TBool
| total_nonetype : total_ty TNoneType
| total_any : total_ty TAny
| total_rule r : (forall v, exists b, r_validate r v = ROk b) -> total_ty (TRule r)
| total_list e : total_ty e -> total_ty (TList e)
| total_listbare : total_ty TListBare
| total_tuple ts : Forall total_ty ts -> total_ty (TTuple ts)
| total_union ts : Forall total_ty ts -> total_ty (TUnion ts)
| total_schema_ty s : total_schema s -> total_ty (TSchema s)
with total_schema : schema -> Prop :=
| total_mk name fs cs ov :
    Forall (fun p => total_ty (snd p)) fs ->
    Forall (fun c => forall d, exists b, c_pred c d = ROk b) cs ->
    total_schema (MkSchema name fs cs ov).


(** [obj[p1][p2]...[pn]] on nested dicts: what [_apply_path] is meant to
    have written. *)
Fixpoint get_parts (obj : dict) (parts : list string) : option value :=
  match parts with
  | [] => None
  | [k] => dict_get k obj
  | k :: rest =>
      match dict_get k obj with
      | Some (VDict d) => get_parts d rest
      | _ => None
      end
  end.

(** Induction over values, with the elements of lists, tuples and dicts. *)
Section ValInd.
Variable P : value -> Prop.
Hypotheses
  (HNone : P VNone) (HBool : forall b, P (VBool b)) (HInt : forall z, P (VInt z))
  (HFloat : forall q, P (VFloat q)) (HStr : forall s, P (VStr s))
  (HList : forall l, Forall P l -> P (VList l))
  (HTuple : forall l, Forall P l -> P (VTuple l))
  (HDict : forall d, Forall (fun p => P (snd p)) d -> P (VDict d)).

Fixpoint value_ind' (v : value) : P v :=
  match v with
  | VNone => HNone | VBool b => HBool b | VInt z => HInt z | VFloat q => HFloat q
  | VStr s => HStr s
  | VList l =>
      HList l ((fix go (l : list value) : Forall P l :=
                  match l with
                  | [] => Forall_nil P
                  | x :: l' => Forall_cons x (value_ind' x) (go l')
                  end) l)
  | VTuple l =>
      HTuple l ((fix go (l : list value) : Forall P l :=
                   match l with
                   | [] => Forall_nil P
                   | x :: l' => Forall_cons x (value_ind' x) (go l')
                   end) l)
  | VDict d =>
      HDict d ((fix go (d : list (string * value)) : Forall (fun p => P (snd p)) d :=
                  match d with
                  | [] => Forall_nil _
                  | (k, x) :: d' => Forall_cons (k, x) (value_ind' x) (go d')
                  end) d)
  end.
End ValInd.

(** Python's [==] on lists and tuples (same length, equal elements) and
    on dicts (same size, every key of the first found in the second with an
    equal value), given [==] on the elements. *)
Fixpoint list_eqb (eq : value -> value -> bool) (l m : list value) : bool :=
  match l, m with
  | [], [] => true
  | x :: l', y :: m' => eq x y && list_eqb eq l' m'
  | _, _ => false
  end.

Fixpoint dict_eqb_aux (eq : value -> value -> bool) (d e : dict) : bool :=
  match d with
  | [] => true
  | (k, x) :: d' =>
      match dict_get k e with
      | Some y => eq x y && dict_eqb_aux eq d' e
      | None => false
      end
  end.

(** [a == b]: numbers ([bool], [int], [float]) by value, strings by
    content, a list never equals a tuple. *)
Fixpoint py_eq (a b : value) {struct a} : bool :=
  match a, b with
  | VNone, VNone => true
  | VStr s, VStr t => String.eqb s t
  | VList l, VList m => list_eqb py_eq l m
  | VTuple l, VTuple m => list_eqb py_eq l m
  | VDict d, VDict e => Nat.eqb (length d) (length e) && dict_eqb_aux py_eq d e
  | _, _ =>
      match py_number a, py_number b with
      | Some p, Some q => Qeq_bool p q
      | _, _ => false
      end
  end.

(** Values as Python builds them: the keys of every dict are distinct. *)
Fixpoint wf_value (v : value) : Prop :=
  match v with
  | VList l | VTuple l =>
      (fix go (l : list value) : Prop :=
         match l with [] => True | x :: l' => wf_value x /\ go l' end) l
  | VDict d =>
      NoDup (List.map fst d) /\
      (fix go (d : dict) : Prop :=
         match d with [] => True | (_, x) :: d' => wf_value x /\ go d' end) d
  | _ => True
  end.

(** [OneOf[params]] from [rules/predefined.py]: [validate] is
    [v in params]. *)
Definition OneOf_validate (params : list value) (v : value) : result bool :=
  ROk (existsb (fun p => py_eq p v) params).

(** [OneOf.example] is [random.choice(params)]: [IndexError] on an empty
    sequence, otherwise [params[i]] for the random draw [i < len(params)]
    (here any [r], taken modulo the length). *)
Definition OneOf_example (params : list value) (r : nat) : result value :=
  match params with
  | [] => RExn "IndexError"
  | _ => ROk (nth (r mod List.length params) params VNone)
  end.

(** [s.replace(c, rep)] for a one-character [c]. *)
Fixpoint replace_char (c : ascii) (rep s : string) : string :=
  match s with
  | EmptyString => EmptyString
  | String c' s' =>
      if Ascii.eqb c' c then rep ++ replace_char c rep s'
      else String c' (replace_char c rep s')
  end.

(** [AutoRepair._parts]:
    [[p for p in path.replace("]", "").replace("[", ".").split(".") if p]] *)
Definition _parts (path : string) : list string :=
  filter (fun p => negb (String.eqb p EmptyString))
    (split_dot (replace_char "["%char "." (replace_char "]"%char EmptyString path))).

(** A character [str.isdigit] accepts: an ASCII digit or, among the
    characters up to 255, a superscript one, two or three. *)
Definition is_ascii_digit (c : ascii) : bool :=
  Nat.leb 48 (nat_of_ascii c) && Nat.leb (nat_of_ascii c) 57.
Definition is_digit_char (c : ascii) : bool :=
  is_ascii_digit c || Nat.eqb (nat_of_ascii c) 178 || Nat.eqb (nat_of_ascii c) 179
  || Nat.eqb (nat_of_ascii c) 185.

Fixpoint all_chars (f : ascii -> bool) (s : string) : bool :=
  match s with
  | EmptyString => true
  | String c s' => f c && all_chars f s'
  end.

(** [p.isdigit()] *)
Definition py_isdigit (s : string) : bool :=
  match s with
  | EmptyString => false
  | _ => all_chars is_digit_char s
  end.

Fixpoint decimal_value (s : string) (acc : nat) : nat :=
  match s with
  | EmptyString => acc
  | String c s' => decimal_value s' (acc * 10 + (nat_of_ascii c - 48))
  end.

(** [int(p)] for a string [p.isdigit()] accepts: superscripts are no
    decimal digits and raise [ValueError]. *)
Definition py_int_str (s : string) : result nat :=
  if all_chars is_ascii_digit s then ROk (decimal_value s O) else RExn "ValueError".

(** [cur[int(p)] if p.isdigit() else cur[p]] *)
Definition py_index (cur : value) (p : string) : result value :=
  if py_isdigit p then
    n <- py_int_str p ;;
    match cur with
    | VList l | VTuple l =>
        match nth_error l n with Some v => ROk v | None => RExn "IndexError" end
    | VStr s =>
        match String.get n s with
        | Some c => ROk (VStr (String c EmptyString))
        | None => RExn "IndexError"
        end
    | VDict _ => RExn "KeyError"   (* the keys are strings *)
    | _ => RExn "TypeError"
    end
  else
    match cur with
    | VDict d => match dict_get p d with Some v => ROk v | None => RExn "KeyError" end
    | _ => RExn "TypeError"
    end.

Fixpoint extract_parts (cur : value) (parts : list string) : result value :=
  match parts with
  | [] => ROk cur
  | p :: ps => c <- py_index cur p ;; extract_parts c ps
  end.

(** [AutoRepair._extract]; the final [copy.deepcopy] is the identity on
    values. *)
Definition _extract (data : value) (path : string) : result value :=
  extract_parts data (_parts path).

(** [_temp_attrs(obj, **patch)]: [obj] is [None] or an object, given by
    its attributes as an association list; [body] is the [with] block, run
    on [obj] and returning it with the block's result or exception. *)
Section TempAttrs.
Context {A R : Type}.

Fixpoint getattr (k : string) (o : list (string * A)) : option A :=
  match o with
  | [] => None
  | (k', v) :: o' => if String.eqb k' k then Some v else getattr k o'
  end.

Fixpoint setattr (o : list (string * A)) (k : string) (v : A) : list (string * A) :=
  match o with
  | [] => [(k, v)]
  | (k', v') :: o' => if String.eqb k' k then (k', v) :: o' else (k', v') :: setattr o' k v
  end.

(** [for k, v in patch.items(): setattr(obj, k, v)] *)
Definition set_attrs (o : list (string * A)) (kvs : list (string * A)) : list (string * A) :=
  fold_left (fun o kv => setattr o (fst kv) (snd kv)) kvs o.

(** [saved = {k: getattr(obj, k) for k in patch}] *)
Fixpoint saved_attrs (patch : list (string * A)) (o : list (string * A))
    : result (list (string * A)) :=
  match patch with
  | [] => ROk []
  | (k, _) :: patch' =>
      match getattr k o with
      | Some v => rest <- saved_attrs patch' o ;; ROk ((k, v) :: rest)
      | None => RExn "AttributeError"
      end
  end.

(** [if obj is None or not patch: yield]; otherwise read the saved values,
    patch, run the block and, in [finally], write the saved values back.
    A block cannot turn the object into [None]; [option_map] restores the
    object the block returns. *)
Definition _temp_attrs (patch : list (string * A))
    (body : option (list (string * A)) -> option (list (string * A)) * result R)
    (obj : option (list (string * A))) : option (list (string * A)) * result R :=
  match obj, patch with
  | None, _ | _, [] => body obj
  | Some o, _ :: _ =>
      match saved_attrs patch o with
      | RExn e => (obj, RExn e)
      | ROk saved =>
          let '(o2, r) := body (Some (set_attrs o patch)) in
          (option_map (fun o2' => set_attrs o2' saved) o2, r)
      end
  end.
End TempAttrs.


(** Most generator calls a strategy can make: [retries + 1] for a
    [BaseStrategy], both strategies' for a [Fallback], and for an
    [AutoRepair] the inner strategy's and [repair_retries + 1] per repair
    round. *)
Fixpoint max_asks (s : strategy) : nat :=
  match s with
  | SBase _ _ _ r => S r
  | SFallback _ i f => max_asks i + max_asks f
  | SAutoRepair _ i d _ rr => max_asks i + d * S rr
  end.

(** Every [BaseStrategy] inside [s] validates against schema [S]. *)
Fixpoint uses_schema (S : schema) (s : strategy) : Prop :=
  match s with
  | SBase _ p _ _ => p_schema p = S
  | SFallback _ i f => uses_schema S i /\ uses_schema S f
  | SAutoRepair _ i _ _ _ => uses_schema S i
  end.

(* ================================================================== *)
(** * Properties *)

(** ** Record validation *)

(** Discharges [keys_declared fields data] for concrete lists. *)
Ltac keys_ok :=
  unfold keys_declared; simpl;
  repeat (apply Forall_cons; [simpl; auto 10|]); apply Forall_nil.

Lemma existsb_field_name (fs : list (string * ty)) (k : string) :
  existsb (fun p => String.eqb (fst p) k) fs = true <-> In k (List.map fst fs).
Proof.
  induction fs as [|[n t] fs IH]; simpl.
  - split; [discriminate | contradiction].
  - rewrite Bool.orb_true_iff, IH, String.eqb_eq.
    split; intros [H|H]; auto.
Qed.

Lemma unexpected_key_none (fs : list (string * ty)) (keys : list string) :
  unexpected_key fs keys = None <-> Forall (fun k => In k (List.map fst fs)) keys.
Proof.
  induction keys as [|k keys IH]; simpl.
  - split; auto.
  - destruct (existsb (fun p => String.eqb (fst p) k) fs) eqn:E.
    + apply existsb_field_name in E.
      rewrite IH. split; [intros H; constructor; auto | intros H; inversion H; auto].
    + split; [discriminate|].
      intros H; inversion H; subst.
      apply existsb_field_name in H2. congruence.
Qed.

Lemma unexpected_key_first (fs : list (string * ty)) (pre : list string) (k : string)
    (post : list string) :
  Forall (fun k' => In k' (List.map fst fs)) pre ->
  ~ In k (List.map fst fs) ->
  unexpected_key fs (pre ++ k :: post)
  = Some (quoted k ++ " is not a valid field.", quoted k ++ " is not expected here.").
Proof.
  intros Hpre Hk.
  induction Hpre as [|k' pre Hk' _ IH]; simpl.
  - destruct (existsb (fun p => String.eqb (fst p) k) fs) eqn:E; [|reflexivity].
    apply existsb_field_name in E. contradiction.
  - apply existsb_field_name in Hk'. rewrite Hk'. exact IH.
Qed.

Lemma field_loop_skip vv data pre rest :
  Forall (field_ok_with vv data) pre ->
  field_loop vv data (pre ++ rest) = field_loop vv data rest.
Proof.
  intros H. induction H as [|[n t] pre Hp _ IH]; simpl; [reflexivity|].
  destruct Hp as [[G O] | [v [G V]]]; rewrite G.
  - rewrite O. exact IH.
  - rewrite V. exact IH.
Qed.

Lemma field_loop_none_iff vv data fs :
  field_loop vv data fs = ROk None <-> Forall (field_ok_with vv data) fs.
Proof.
  induction fs as [|[n t] fs IH]; simpl.
  - split; auto.
  - destruct (dict_get n data) as [v|] eqn:G.
    + destruct (vv n v t) as [[e|]|e] eqn:V; simpl.
      * split; [discriminate|]. intros H; inversion H; subst.
        destruct H2 as [[G' _] | [v' [G' V']]]; congruence.
      * rewrite IH. split; [intros H; constructor; auto; right; eauto
                           | intros H; inversion H; auto].
      * split; [discriminate|]. intros H; inversion H; subst.
        destruct H2 as [[G' _] | [v' [G' V']]]; congruence.
    + destruct (is_optional t) eqn:O.
      * rewrite IH. split; [intros H; constructor; auto; left; auto
                           | intros H; inversion H; auto].
      * split; [discriminate|]. intros H; inversion H; subst.
        destruct H2 as [[_ O'] | [v' [G' _]]]; congruence.
Qed.

Lemma validate_cross_none_iff cs data :
  validate_cross cs data = ROk None <-> Forall (fun c => c_pred c data = ROk true) cs.
Proof.
  induction cs as [|c cs IH]; simpl.
  - split; auto.
  - destruct (c_pred c data) as [[|]|e] eqn:P; simpl.
    + rewrite IH. split; [intros H; constructor; auto | intros H; inversion H; auto].
    + split; [discriminate|]. intros H; inversion H; congruence.
    + split; [discriminate|]. intros H; inversion H; congruence.
Qed.

Lemma validate_cross_first cpre c cpost data :
  Forall (fun c' => c_pred c' data = ROk true) cpre ->
  c_pred c data = ROk false ->
  validate_cross (cpre ++ c :: cpost) data
  = ROk (Some (quoted (c_path c) ++ " violates constraint.",
               quoted (c_path c) ++ " " ++ c_desc c)).
Proof.
  intros H Hc. induction H as [|c' cpre Hc' _ IH]; simpl.
  - rewrite Hc. reflexivity.
  - rewrite Hc'. exact IH.
Qed.

Lemma validate_with_error_eq nm fields cs ov data :
  validate_with_error (MkSchema nm fields cs ov) data
  = match unexpected_key fields (List.map fst data) with
    | Some err => ROk (Some err)
    | None =>
        err <- field_loop (fun n v t => validate_value n v t "") data fields ;;
        match err with
        | Some _ => ROk err
        | None => validate_cross cs data
        end
    end.
Proof. reflexivity. Qed.

(** ** Unions *)

Lemma union_loop_spec (vv : ty -> result verr) (full : string) (ts : list ty) :
  (forall alt, In alt ts -> exists r, vv alt = ROk r) ->
  forall parts,
  (union_loop vv full ts parts = ROk None <-> Exists (fun alt => vv alt = ROk None) ts)
  /\ (Forall (fun alt => vv alt <> ROk None) ts ->
      exists longs,
        union_loop vv full ts parts
        = ROk (Some (quoted full ++ " matches none of the allowed alternatives.",
                     str_join " or " (List.rev parts ++ longs)))
        /\ Forall2 (fun alt lg => exists sh, vv alt = ROk (Some (sh, lg))) ts longs).
Proof.
  induction ts as [|alt ts IH]; intros Hr parts; simpl.
  - split.
    + split; [discriminate | intros H; inversion H].
    + intros _. exists []. rewrite app_nil_r. split; [reflexivity | constructor].
  - destruct (Hr alt (or_introl eq_refl)) as [[[sh lg]|] E]; rewrite E; simpl.
    + assert (Hr' : forall a, In a ts -> exists r, vv a = ROk r) by (intros a Ha; apply Hr; right; exact Ha).
      destruct (IH Hr' (lg :: parts)) as [IH1 IH2].
      split.
      * rewrite IH1. split; [intros H; right; exact H|].
        intros H; inversion H; subst; [congruence | assumption].
      * intros H; inversion H; subst.
        destruct (IH2 H3) as [longs [L F]].
        exists (lg :: longs). split.
        -- rewrite L. simpl. rewrite <- app_assoc. reflexivity.
        -- constructor; eauto.
    + split.
      * split; [intros _; left; exact E | reflexivity].
      * intros H; inversion H as [|? ? Hn]; subst; exfalso; exact (Hn E).
Qed.

Lemma union_not_optional key val ts prefix :
  is_optional (TUnion ts) = false ->
  validate_value key val (TUnion ts) prefix
  = union_loop (fun alt => validate_value key val alt prefix) (prefix ++ key) ts [].
Proof.
  intros H. destruct ts as [|a [|b [|c ts]]]; try reflexivity.
  simpl in H |- *. rewrite H. reflexivity.
Qed.

(** C2: the integer check of [_validate_value] is [isinstance(val, int)],
    and a Python [bool] is an [int]: every boolean passes both the
    integer and the boolean primitive checks. *)
Theorem bool_passes_int_check (b : bool) (key prefix : string) :
  validate_value key (VBool b) TInt prefix = ROk None
  /\ validate_value key (VBool b) TBool prefix = ROk None.
Proof. split; reflexivity. Qed.

(** C5, counterexample: in [ParitySchema] the data [{x: 42, y: 2}]
    violates the constraint anchored at [y]; the long error returned is
    the quoted anchor followed by the description, not the description. *)
Lemma constraint_long_error_not_desc :
  validate_with_error ParitySchema [("x", VInt 42); ("y", VInt 2)]
  <> ROk (Some (quoted "y" ++ " violates constraint.", parity_desc))
  /\ validate_with_error ParitySchema [("x", VInt 42); ("y", VInt 2)]
     = ROk (Some (quoted "y" ++ " violates constraint.",
                  quoted "y" ++ " " ++ parity_desc)).
Proof.
  split.
  - vm_compute. discriminate.
  - vm_compute. reflexivity.
Qed.

(** C5: [validate_with_error] on a record [MkSchema nm fields cs ov]
    (a) reports the first undeclared key of the data, as
        ["<key>" is not a valid field.];
    (b) when all keys are declared, reports the first declared field that
        fails, in declaration order: ["<field>" is missing.] for an absent
        non-optional field, or the field's own error;
    (c) when all keys and fields pass, reports the first violated
        constraint, with short error ["<anchor>" violates constraint.] and
        long error the quoted anchor, a space and the description;
    (d) succeeds exactly when all keys are declared, all fields pass and
        all constraints hold. *)
Theorem validate_with_error_order (nm : string) (fields : list (string * ty))
    (cs : list constr) (ov : list (string * value)) (data : dict) :
  (forall pre k post,
      List.map fst data = (pre ++ k :: post)%list ->
      Forall (fun k' => In k' (List.map fst fields)) pre ->
      ~ In k (List.map fst fields) ->
      validate_with_error (MkSchema nm fields cs ov) data
      = ROk (Some (quoted k ++ " is not a valid field.", quoted k ++ " is not expected here.")))
  /\ (keys_declared fields data ->
      forall pre n t post,
        fields = (pre ++ (n, t) :: post)%list ->
        Forall (field_ok data) pre ->
        (dict_get n data = None -> is_optional t = false ->
         validate_with_error (MkSchema nm fields cs ov) data
         = ROk (Some (quoted n ++ " is missing.", quoted n ++ " must be present.")))
        /\ (forall v e, dict_get n data = Some v -> validate_value n v t "" = ROk (Some e) ->
            validate_with_error (MkSchema nm fields cs ov) data = ROk (Some e)))
  /\ (keys_declared fields data -> Forall (field_ok data) fields ->
      forall cpre c cpost,
        cs = (cpre ++ c :: cpost)%list ->
        Forall (fun c' => c_pred c' data = ROk true) cpre ->
        c_pred c data = ROk false ->
        validate_with_error (MkSchema nm fields cs ov) data
        = ROk (Some (quoted (c_path c) ++ " violates constraint.",
                     quoted (c_path c) ++ " " ++ c_desc c)))
  /\ (validate_with_error (MkSchema nm fields cs ov) data = ROk None
      <-> keys_declared fields data /\ Forall (field_ok data) fields
          /\ Forall (fun c => c_pred c data = ROk true) cs).
Proof.
  rewrite !validate_with_error_eq.
  split; [|split; [|split]].
  - intros pre k post Hk Hpre Hnot. rewrite Hk, unexpected_key_first; auto.
  - intros Hkeys pre n t post -> Hpre.
    apply unexpected_key_none in Hkeys. rewrite Hkeys.
    unfold field_ok in Hpre. rewrite field_loop_skip by exact Hpre.
    split.
    + intros G O. simpl. rewrite G, O. reflexivity.
    + intros v e G V. simpl. rewrite G, V. reflexivity.
  - intros Hkeys Hf cpre c cpost -> Hpre Hc.
    apply unexpected_key_none in Hkeys. rewrite Hkeys.
    unfold field_ok in Hf. apply field_loop_none_iff in Hf. rewrite Hf. simpl.
    apply validate_cross_first; assumption.
  - unfold keys_declared, field_ok.
    rewrite <- unexpected_key_none, <- field_loop_none_iff, <- validate_cross_none_iff.
    destruct (unexpected_key fields (List.map fst data)) as [err|].
    + split; [discriminate | intros [H _]; discriminate].
    + destruct (field_loop (fun n v t => validate_value n v t "") data fields)
        as [[err|]|e]; simpl.
      * split; [discriminate | intros [_ [H _]]; discriminate].
      * split; [intros H; auto | intros [_ [_ H]]; exact H].
      * split; [discriminate | intros [_ [H _]]; discriminate].
Qed.

(** C5, witness: [two_violations] breaks both [x] and [y] of
    [ParitySchema]; only the [x] violation is reported. *)
Lemma validate_with_error_order_witness :
  validate_with_error ParitySchema two_violations
  = ROk (Some (quoted "x" ++ " must be integer", quoted "x" ++ " must be integer")).
Proof.
  destruct (validate_with_error_order "MySchema" [("x", TInt); ("y", TInt)]
              [parity_constraint] [] two_violations) as [_ [Hb _]].
  assert (Hk : keys_declared [("x", TInt); ("y", TInt)] two_violations).
  { keys_ok. }
  exact (proj2 (Hb Hk [] "x" TInt [("y", TInt)] eq_refl (Forall_nil _))
           (VStr "a") _ eq_refl eq_refl).
Defined.

(** C6: a [TypeError] raised by an earlier alternative (the [Interval]
    rule compared with a string, against the rule contract
    [validate(v) -> bool]) ends the union check, although the later
    alternative [str] accepts the value. *)
Lemma union_exception_propagates :
  validate_value "a" (VStr "a") (TUnion [TRule (Interval 0 10); TStr]) "" = RExn "TypeError"
  /\ validate_value "a" (VStr "a") TStr "" = ROk None.
Proof. split; reflexivity. Qed.

(** X18: for a union that is not [Optional[T]] and whose alternatives do
    not raise on the value, the value is accepted exactly when some
    alternative accepts it; when every alternative rejects it, the short
    error says that the path matches none of the allowed alternatives and
    the long error joins the alternatives' long errors, in order, with
    [" or "]. *)
Theorem union_any_alternative (key : string) (val : value) (ts : list ty) (prefix : string) :
  is_optional (TUnion ts) = false ->
  (forall alt, In alt ts -> exists r, validate_value key val alt prefix = ROk r) ->
  (validate_value key val (TUnion ts) prefix = ROk None
   <-> Exists (fun alt => validate_value key val alt prefix = ROk None) ts)
  /\ (Forall (fun alt => validate_value key val alt prefix <> ROk None) ts ->
      exists longs,
        validate_value key val (TUnion ts) prefix
        = ROk (Some (quoted (prefix ++ key) ++ " matches none of the allowed alternatives.",
                     str_join " or " longs))
        /\ Forall2 (fun alt lg => exists sh,
                      validate_value key val alt prefix = ROk (Some (sh, lg))) ts longs).
Proof.
  intros Hopt Hr. rewrite union_not_optional by exact Hopt.
  exact (union_loop_spec _ _ ts Hr []).
Qed.

(** X18, witness: [Union[int, str]] accepts [42] and ["a"] and rejects
    [[1]] with both alternatives' long errors. *)
Lemma union_any_alternative_witness :
  validate_value "a" (VInt 42) (TUnion [TInt; TStr]) "" = ROk None
  /\ validate_value "a" (VStr "a") (TUnion [TInt; TStr]) "" = ROk None
  /\ exists longs,
       validate_value "a" (VList [VInt 1]) (TUnion [TInt; TStr]) ""
       = ROk (Some (quoted "a" ++ " matches none of the allowed alternatives.",
                    str_join " or " longs))
       /\ Forall2 (fun alt lg => exists sh,
                     validate_value "a" (VList [VInt 1]) alt "" = ROk (Some (sh, lg)))
                  [TInt; TStr] longs.
Proof.
  split; [|split].
  - apply (union_any_alternative "a" (VInt 42) [TInt; TStr] "" eq_refl).
    + intros alt [<-|[<-|[]]]; eexists; reflexivity.
    + left. reflexivity.
  - apply (union_any_alternative "a" (VStr "a") [TInt; TStr] "" eq_refl).
    + intros alt [<-|[<-|[]]]; eexists; reflexivity.
    + right. left. reflexivity.
  - apply (union_any_alternative "a" (VList [VInt 1]) [TInt; TStr] "" eq_refl).
    + intros alt [<-|[<-|[]]]; eexists; reflexivity.
    + repeat constructor; discriminate.
Defined.

(** ** The fuzzy-excerpt rule *)

(** C9, counterexample: the example of the rule built from a source text
    is not a string at all, so it is no prefix of the normalised source. *)
Lemma excerptish_example_not_prefix :
  ~ exists r n,
      excerptish_rule (fun _ _ => true) "The grey fox, jumped over the lazy dog." None 500 250
      = ROk r
      /\ r_example r
         = VStr (substring 0 n (normalize "The grey fox, jumped over the lazy dog.")).
Proof.
  intros [r [n [H1 H2]]]. injection H1 as <-. discriminate H2.
Qed.

(** C9: whatever the source, label, window, stride and similarity test,
    the rule built by [excerptish_rule] has the same fixed example, a list
    of two placeholder passages. *)
Theorem excerptish_example_constant (similar : string -> string -> bool)
    (source : string) (label : option string) (window stride : nat) (r : rule) :
  excerptish_rule similar source label window stride = ROk r ->
  r_example r = VList [VStr "... the grey fox jumped ...";
                       VStr "... ad minim veniam, quis nostrud  ..."].
Proof.
  unfold excerptish_rule. destruct (Nat.eqb stride 0); [discriminate|].
  intros H. injection H as <-. reflexivity.
Qed.

(** C9, witness. *)
Lemma excerptish_example_constant_witness :
  exists r,
    excerptish_rule (fun _ _ => false) "The grey fox, jumped over the lazy dog." None 500 250
    = ROk r
    /\ r_example r = VList [VStr "... the grey fox jumped ...";
                            VStr "... ad minim veniam, quis nostrud  ..."].
Proof.
  destruct (excerptish_rule (fun _ _ => false) "The grey fox, jumped over the lazy dog."
              None 500 250) as [r|e] eqn:E; [|discriminate E].
  exists r. split; [reflexivity|].
  exact (excerptish_example_constant _ _ _ _ _ r E).
Defined.

(** ** Interval fields and non-numbers *)

(** C10: in a record whose field [name] is an [Interval[lo, hi]] field,
    if the keys of the data are declared, the fields before [name] pass,
    and the value at [name] is not a number (a string, [None], a list, a
    dict, ...), [validate_with_error] raises [TypeError] instead of
    returning an error pair. *)
Theorem interval_field_non_number_raises (nm : string) (pre : list (string * ty))
    (name : string) (lo hi : Z) (post : list (string * ty)) (cs : list constr)
    (ov : list (string * value)) (data : dict) (v : value) :
  keys_declared (pre ++ (name, TRule (Interval lo hi)) :: post) data ->
  Forall (field_ok data) pre ->
  dict_get name data = Some v ->
  py_number v = None ->
  validate_with_error (MkSchema nm (pre ++ (name, TRule (Interval lo hi)) :: post) cs ov) data
  = RExn "TypeError".
Proof.
  intros Hk Hpre G N.
  rewrite validate_with_error_eq.
  apply unexpected_key_none in Hk. rewrite Hk.
  unfold field_ok in Hpre. rewrite field_loop_skip by exact Hpre.
  simpl. rewrite G. simpl. unfold py_le_Z_l. rewrite N. reflexivity.
Qed.

(** C10, witness: [RandomNumbers] with ["a"] or [None] at [x]. *)
Lemma interval_field_non_number_raises_witness :
  validate_with_error RandomNumbers [("x", VStr "a")] = RExn "TypeError"
  /\ validate_with_error RandomNumbers [("x", VNone)] = RExn "TypeError".
Proof.
  split.
  - apply (interval_field_non_number_raises "RandomNumbers" [] "x" 0 10 [] [] []
             [("x", VStr "a")] (VStr "a")); try reflexivity.
    + keys_ok.
    + constructor.
  - apply (interval_field_non_number_raises "RandomNumbers" [] "x" 0 10 [] [] []
             [("x", VNone)] VNone); try reflexivity.
    + keys_ok.
    + constructor.
Defined.

(** ** Strategies *)

Section StrategyProps.
Context {C : Collab}.
Local Open Scope nat_scope.
Local Open Scope list_scope.

Lemma nth_error_app_len {A} (h : list A) (d : A) :
  nth_error (h ++ [d]) (length h) = Some d.
Proof. rewrite nth_error_app2, Nat.sub_diag by lia. reflexivity. Qed.

Lemma validate_at_ext p s s' ext l :
  heap s' = heap s ++ ext -> l < length (heap s) ->
  validate_at p s' l = validate_at p s l.
Proof.
  intros H Hl. unfold validate_at. rewrite H, nth_error_app1 by exact Hl. reflexivity.
Qed.

Lemma base_loop_eq p a txt k :
  base_loop p a txt k =
  (l <-- ask a txt ;;
   v <-- validate_loc p l ;;
   match v with
   | None => mret (l, true, None, None)
   | Some (e, x) =>
       match k with
       | O => mret (l, false, Some e, Some x)
       | S k' => base_loop p a txt k'
       end
   end).
Proof. destruct k; reflexivity. Qed.

Lemma base_loop_spec p a txt : forall k s s' res,
  base_loop p a txt k s = (s', res) ->
  exists new ext,
    trace s' = trace s ++ new /\ heap s' = heap s ++ ext /\
    Forall (fun ev => exists l, ev = EAsk a txt l) new /\
    length new <= S k /\
    (forall l e1 e2, res = ROk (l, true, e1, e2) ->
       e1 = None /\ e2 = None /\
       exists prev, ask_locs new = prev ++ [l] /\ validate_at p s' l = ROk None
                    /\ Forall (invalid_at p s') prev) /\
    (forall l e1 e2, res = ROk (l, false, e1, e2) ->
       length new = S k /\
       exists prev sh lg, ask_locs new = prev ++ [l]
         /\ validate_at p s' l = ROk (Some (sh, lg)) /\ e1 = Some sh /\ e2 = Some lg
         /\ Forall (invalid_at p s') prev).
Proof.
  induction k as [|k IH]; intros s s' res H; rewrite base_loop_eq in H;
  cbv [mbind ask validate_loc read lift mret] in H; cbn [heap trace] in H;
  rewrite nth_error_app_len in H;
  set (d := oracle a (count_asks a (trace s)) txt) in H;
  set (s1 := {| heap := heap s ++ [d]; trace := trace s ++ [EAsk a txt (length (heap s))] |}) in H;
  assert (V1 : validate_at p s1 (length (heap s)) = validate_with_error (p_schema p) d)
    by (unfold validate_at; simpl; rewrite nth_error_app_len; reflexivity);
  destruct (validate_with_error (p_schema p) d) as [[[sh lg]|]|e] eqn:V.
  all: simpl in H.
  - injection H as <- <-.
    exists [EAsk a txt (length (heap s))], [d].
    split; [reflexivity|]. split; [reflexivity|].
    split; [constructor; eauto|]. split; [simpl; lia|].
    split; [intros l e1 e2 Hr; discriminate Hr|].
    intros l e1 e2 Hr; injection Hr as <- <- <-.
    split; [reflexivity|]. exists [], sh, lg.
    rewrite V1. repeat split; constructor.
  - injection H as <- <-.
    exists [EAsk a txt (length (heap s))], [d].
    split; [reflexivity|]. split; [reflexivity|].
    split; [constructor; eauto|]. split; [simpl; lia|].
    split; [|intros l e1 e2 Hr; discriminate Hr].
    intros l e1 e2 Hr; injection Hr as <- <- <-.
    split; [reflexivity|]. split; [reflexivity|]. exists [].
    rewrite V1. repeat split; constructor.
  - injection H as <- <-.
    exists [EAsk a txt (length (heap s))], [d].
    split; [reflexivity|]. split; [reflexivity|].
    split; [constructor; eauto|]. split; [simpl; lia|].
    split; intros l e1 e2 Hr; discriminate Hr.
  - destruct (IH s1 s' res H) as [new [ext [T [Hh [F [L [OK KO]]]]]]].
    exists (EAsk a txt (length (heap s)) :: new), (d :: ext).
    assert (X : validate_at p s' (length (heap s)) = ROk (Some (sh, lg))).
    { rewrite (validate_at_ext p s1 s' ext); [exact V1 | exact Hh |].
      simpl. rewrite length_app. simpl. lia. }
    split; [rewrite T; simpl; rewrite <- app_assoc; reflexivity|].
    split; [rewrite Hh; simpl; rewrite <- app_assoc; reflexivity|].
    split; [constructor; eauto|]. split; [simpl; lia|].
    split.
    + intros l e1 e2 Hr. destruct (OK l e1 e2 Hr) as [E1 [E2 [prev [P [Vl Fp]]]]].
      split; [exact E1|]. split; [exact E2|].
      exists (length (heap s) :: prev). simpl. rewrite P.
      split; [reflexivity|]. split; [exact Vl|]. constructor; [|exact Fp].
      exists (sh, lg). exact X.
    + intros l e1 e2 Hr. destruct (KO l e1 e2 Hr) as [Ln [prev [sh' [lg' [P R]]]]].
      split; [simpl; lia|].
      exists (length (heap s) :: prev), sh', lg'. simpl. rewrite P.
      split; [reflexivity|]. destruct R as [R1 [R2 [R3 R4]]].
      repeat split; auto. constructor; [|exact R4]. exists (sh, lg). exact X.
  - injection H as <- <-.
    exists [EAsk a txt (length (heap s))], [d].
    split; [reflexivity|]. split; [reflexivity|].
    split; [constructor; eauto|]. split; [simpl; lia|].
    split; [|intros l e1 e2 Hr; discriminate Hr].
    intros l e1 e2 Hr; injection Hr as <- <- <-.
    split; [reflexivity|]. split; [reflexivity|]. exists [].
    rewrite V1. repeat split; constructor.
  - injection H as <- <-.
    exists [EAsk a txt (length (heap s))], [d].
    split; [reflexivity|]. split; [reflexivity|].
    split; [constructor; eauto|]. split; [simpl; lia|].
    split; intros l e1 e2 Hr; discriminate Hr.
Qed.

Lemma only_asks_readers a new :
  only_asks a new -> calls_of new = [] /\ repair_depths new = [].
Proof.
  induction 1 as [|ev new [txt [l ->]] _ IH]; simpl; auto.
Qed.

Lemma calls_of_app t1 t2 : calls_of (t1 ++ t2) = calls_of t1 ++ calls_of t2.
Proof. induction t1 as [|[] t1 IH]; simpl; try rewrite IH; reflexivity. Qed.

Lemma repair_depths_app t1 t2 :
  repair_depths (t1 ++ t2) = repair_depths t1 ++ repair_depths t2.
Proof. induction t1 as [|[] t1 IH]; simpl; try rewrite IH; reflexivity. Qed.

Lemma run_base_spec p a r tm s s' res :
  run_base p a r tm s = (s', res) ->
  exists new ext, trace s' = trace s ++ new /\ heap s' = heap s ++ ext /\ only_asks a new.
Proof.
  unfold run_base, mbind, lift. destruct (render p tm) as [txt|e].
  - intros H. destruct (base_loop_spec p a txt r s s' res H)
      as [new [ext [T [Hh [F _]]]]].
    exists new, ext. repeat split; auto.
    eapply Forall_impl; [|exact F]. intros ev [l ->]. eauto.
  - intros H. injection H as <- <-. exists [], [].
    rewrite !app_nil_r. repeat split; constructor.
Qed.

Lemma run_sbase_spec j p a r tm s s' res :
  run (SBase j p a r) tm s = (s', res) ->
  exists new ext, trace s' = trace s ++ ECall j :: new /\ heap s' = heap s ++ ext
                  /\ only_asks a new.
Proof.
  cbn [run]. unfold mbind at 1, emit. intros H.
  destruct (run_base_spec p a r tm _ s' res H) as [new [ext [T [Hh F]]]].
  exists new, ext. simpl in T, Hh. rewrite T, <- app_assoc. auto.
Qed.

Lemma length_update_nth {A} (h : list A) n x : length (update_nth h n x) = length h.
Proof.
  revert n; induction h as [|y h IH]; intros [|n]; simpl; auto.
Qed.

Lemma nth_error_update_nth_neq {A} (h : list A) n x l :
  l <> n -> nth_error (update_nth h n x) l = nth_error h l.
Proof.
  revert n l; induction h as [|y h IH]; intros [|n] [|l] Hne; simpl; auto;
  try congruence; apply IH; congruence.
Qed.

Lemma mbind_ok {A B} (m : M A) (k : A -> M B) s s1 a :
  m s = (s1, ROk a) -> mbind m k s = k a s1.
Proof. intros E. unfold mbind. rewrite E. reflexivity. Qed.

Lemma mbind_exn {A B} (m : M A) (k : A -> M B) s s1 e :
  m s = (s1, RExn e) -> mbind m k s = (s1, RExn e).
Proof. intros E. unfold mbind. rewrite E. reflexivity. Qed.

(** Runs the first step of a [mbind] chain in hypothesis [H]. *)
Ltac step H s1 x E :=
  match type of H with
  | mbind ?m ?k ?s0 = _ =>
      destruct (m s0) as [s1 [x|x]] eqn:E;
      [rewrite (mbind_ok m k s0 s1 x E) in H; cbv beta in H
      |rewrite (mbind_exn m k s0 s1 x E) in H]
  end.

Lemma repair_spec i p rr mode tm repl : forall depth s s' res,
  repair i p rr mode tm repl depth s = (s', res) ->
  exists new, trace s' = trace s ++ new /\ calls_of new = [] /\
    (exists k, repair_depths new = firstn k (countdown depth)) /\
    (res = ROk false -> repair_depths new = countdown depth) /\
    length (heap s) <= length (heap s') /\
    (forall l, l <> repl -> l < length (heap s) -> nth_error (heap s') l = nth_error (heap s) l).
Proof.
  induction depth as [|d IH]; intros s s' res H.
  - cbn [repair] in H. injection H as <- <-. exists [].
    rewrite app_nil_r. repeat split; auto. exists O. reflexivity.
  - cbn [repair] in H.
    assert (Stay : forall e, (s, RExn e) = (s', res) ->
      exists new, trace s' = trace s ++ new /\ calls_of new = [] /\
        (exists k, repair_depths new = firstn k (countdown (S d))) /\
        (res = ROk false -> repair_depths new = countdown (S d)) /\
        length (heap s) <= length (heap s') /\
        (forall l, l <> repl -> l < length (heap s) -> nth_error (heap s') l = nth_error (heap s) l)).
    { intros e E. injection E as <- <-. exists []. rewrite app_nil_r.
      repeat split; auto; [exists O; reflexivity | discriminate]. }
    assert (ReadS : forall l s1 (x : result dict), read l s = (s1, x) -> s1 = s)
      by (intros l s1 x E; unfold read in E; destruct (nth_error (heap s) l); congruence).
    step H s1 v E1.
    2:{ unfold validate_loc, mbind, read, lift in E1.
        destruct (nth_error (heap s) repl); injection E1 as <- _; exact (Stay _ H). }
    assert (s1 = s) by (unfold validate_loc, mbind, read, lift in E1;
                        destruct (nth_error (heap s) repl); congruence).
    subst s1.
    destruct v as [e|]; cbv beta iota in H.
    2:{ injection H as <- <-. exists []. rewrite app_nil_r.
        repeat split; auto; [exists O; reflexivity | discriminate]. }
    step H s1 cur E2; apply ReadS in E2; subst s1; [|exact (Stay _ H)].
    step H s1 txt E3;
      (assert (s1 = s) by (destruct (String.eqb mode "sub");
                             [|destruct (render p tm)]; unfold mret, lift, mbind in E3;
                             cbv beta iota in E3; congruence);
       subst s1); [|exact (Stay _ H)].
    step H s1 a1 E4; unfold lift in E4; injection E4 as <- _; [|exact (Stay _ H)].
    step H s1 u E5; unfold emit in E5; [injection E5 as <- _ | discriminate E5].
    step H s2 o Rb.
    all: destruct (run_base_spec _ _ _ _ _ _ _ Rb) as [new1 [ext1 [T1 [H1 F1]]]];
      destruct (only_asks_readers _ _ F1) as [C1 D1];
      simpl in T1, H1;
      (assert (L1 : length (heap s) <= length (heap s2)) by (rewrite H1, length_app; lia));
      (assert (P1 : forall l, l < length (heap s) -> nth_error (heap s2) l = nth_error (heap s) l)
        by (intros l Hl; rewrite H1, nth_error_app1 by exact Hl; reflexivity));
      (assert (Done : forall s3 (res' : result bool), trace s3 = trace s2 ->
          length (heap s2) <= length (heap s3) ->
          (forall l, l <> repl -> l < length (heap s2) -> nth_error (heap s3) l = nth_error (heap s2) l) ->
          res' <> ROk false ->
          exists new, trace s3 = trace s ++ new /\ calls_of new = [] /\
            (exists k, repair_depths new = firstn k (countdown (S d))) /\
            (res' = ROk false -> repair_depths new = countdown (S d)) /\
            length (heap s) <= length (heap s3) /\
            (forall l, l <> repl -> l < length (heap s) -> nth_error (heap s3) l = nth_error (heap s) l))
        by (intros s3 res' T3 L3 P3 NF; exists (ERepair (S d) :: new1);
            rewrite T3, T1, <- app_assoc; split; [reflexivity|];
            split; [simpl; exact C1|]; split; [exists 1%nat; simpl; rewrite D1; reflexivity|];
            split; [intros E; contradiction|]; split; [lia|];
            intros l Hne Hl; rewrite P3, P1 by (auto; lia); reflexivity)).
    2:{ injection H as <- <-. apply Done; auto. discriminate. }
    destruct o as [[[nl [|]] x1] x2]; cbv beta iota in H.
    + step H s3 nd E6; unfold read in E6;
        destruct (nth_error (heap s2) nl) as [d0|]; try discriminate E6;
        injection E6 as <- E6.
      * step H s4 u7 E7; unfold write in E7; [injection E7 as <- _ | discriminate E7].
        unfold mret in H. injection H as <- <-. apply Done; simpl; auto.
        -- rewrite length_update_nth. lia.
        -- intros l Hne _. apply nth_error_update_nth_neq. exact Hne.
        -- discriminate.
      * injection H as <- <-. apply Done; auto. discriminate.
    + destruct (IH s2 s' res H) as [new2 [T2 [C2 [[k K2] [F2 [L2 P2]]]]]].
      exists (ERepair (S d) :: new1 ++ new2).
      rewrite T2, T1, <- !app_assoc. split; [reflexivity|].
      split; [simpl; rewrite calls_of_app, C1, C2; reflexivity|].
      split; [exists (S k); simpl; rewrite repair_depths_app, D1, K2; reflexivity|].
      split; [intros E; simpl; rewrite repair_depths_app, D1, F2 by exact E; reflexivity|].
      split; [lia|].
      intros l Hne Hl. rewrite P2, P1 by (auto; lia). reflexivity.
Qed.

Lemma run_autorepair_eq id i d mode rr tm s :
  run (SAutoRepair id i d mode rr) tm s =
  match run i tm (enter id s) with
  | (s1, RExn e) => (s1, RExn e)
  | (s1, ROk (reply, ok, e1, e2)) =>
      if ok || Nat.eqb d 0 then (s1, ROk (reply, ok, e1, e2))
      else match nth_error (heap s1) reply with
           | None => (s1, RExn "IndexError")
           | Some cur =>
               match repair i (prompt_of i) rr mode tm (length (heap s1) ) d
                       (MkSt (heap s1 ++ [cur]) (trace s1)) with
               | (s3, ROk true) => (s3, ROk (length (heap s1), true, None, None))
               | (s3, ROk false) => (s3, ROk (reply, ok, e1, e2))
               | (s3, RExn e) => (s3, RExn e)
               end
           end
  end.
Proof.
  cbn [run]. unfold mbind at 1, emit. fold (enter id s).
  unfold mbind at 1.
  destruct (run i tm (enter id s)) as [s1 [[[[reply ok] e1] e2]|e]]; [|reflexivity].
  destruct (ok || Nat.eqb d 0); [reflexivity|].
  unfold mbind, read, alloc. destruct (nth_error (heap s1) reply); [|reflexivity].
  simpl. destruct (repair i (prompt_of i) rr mode tm (length (heap s1)) d _)
    as [s3 [[|]|e]]; reflexivity.
Qed.

(** C8: a [Fallback] object runs its inner strategy to completion in the
    state where it was entered; a successful outcome is returned as it is
    and the fallback never runs; a failed outcome makes the fallback run,
    with the same call-time arguments, from the state the inner strategy
    left, and its outcome (success or failure) is the result; an exception
    of the inner strategy propagates. *)
Theorem fallback_runs_inner_then_fallback id i f tm s :
  run (SFallback id i f) tm s =
  match run i tm (enter id s) with
  | (s1, ROk (l, true, e1, e2)) => (s1, ROk (l, true, e1, e2))
  | (s1, ROk (_, false, _, _)) => run f tm s1
  | (s1, RExn e) => (s1, RExn e)
  end.
Proof.
  cbn [run]. unfold mbind at 1, emit. fold (enter id s). unfold mbind.
  destruct (run i tm (enter id s)) as [s1 [[[[l [|]] e1] e2]|e]]; reflexivity.
Qed.

(** C3: an [AutoRepair] object of depth 0 behaves exactly as its inner
    strategy; and whenever an [AutoRepair] object returns a failure, its
    outcome is the inner strategy's outcome: the same reply object (the
    same heap cell, not a copy), holding what the inner strategy left in
    it, with the inner strategy's error pair. *)
Theorem autorepair_failure_returns_inner_reply id i d mode rr tm s :
  run (SAutoRepair id i 0 mode rr) tm s = run i tm (enter id s)
  /\ (forall s' l e1 e2,
        run (SAutoRepair id i d mode rr) tm s = (s', ROk (l, false, e1, e2)) ->
        exists s1, run i tm (enter id s) = (s1, ROk (l, false, e1, e2))
                   /\ nth_error (heap s') l = nth_error (heap s1) l).
Proof.
  split.
  - rewrite run_autorepair_eq.
    destruct (run i tm (enter id s)) as [s1 [[[[reply ok] e1] e2]|e]]; [|reflexivity].
    rewrite Bool.orb_true_r. reflexivity.
  - intros s' l e1 e2 H. rewrite run_autorepair_eq in H.
    destruct (run i tm (enter id s)) as [s1 [[[[reply ok] e1'] e2']|e]]; [|discriminate].
    destruct (ok || Nat.eqb d 0) eqn:OK.
    + injection H as E0 E1 E2 E3 E4. subst. eexists. split; reflexivity.
    + destruct ok; [discriminate|].
      destruct (nth_error (heap s1) reply) as [cur|] eqn:N; [|discriminate].
      destruct (repair i (prompt_of i) rr mode tm (length (heap s1)) d
                  (MkSt (heap s1 ++ [cur]) (trace s1))) as [s3 r3] eqn:R.
      destruct (repair_spec _ _ _ _ _ _ _ _ _ _ R) as [new [_ [_ [_ [_ [L P]]]]]].
      assert (Lt : reply < length (heap s1))
        by (apply nth_error_Some; rewrite N; discriminate).
      destruct r3 as [[|]|e]; [discriminate| |discriminate].
      injection H; intros; subst. eexists. split; [reflexivity|].
      rewrite P; simpl.
      * apply nth_error_app1. exact Lt.
      * lia.
      * rewrite length_app. lia.
Qed.

(** C4: for an [AutoRepair] object [id] over a [BaseStrategy] [j] with
    depth [d], the objects invoked are [id] and then [j], once each: the
    inner strategy is never run again; the repair rounds happen at the
    remaining depths [d], [d-1], ... (a prefix of [countdown d], so at
    most [d] of them), and a failed outcome comes after all [d] rounds. *)
Theorem autorepair_inner_runs_once id j p a r d mode rr tm s s' res :
  run (SAutoRepair id (SBase j p a r) d mode rr) tm s = (s', res) ->
  exists new, trace s' = trace s ++ new /\ calls_of new = [id; j] /\
    (exists k, repair_depths new = firstn k (countdown d)) /\
    (forall l e1 e2, res = ROk (l, false, e1, e2) -> repair_depths new = countdown d).
Proof.
  intros H. rewrite run_autorepair_eq in H.
  destruct (run (SBase j p a r) tm (enter id s)) as [s1 r1] eqn:R1.
  destruct (run_sbase_spec _ _ _ _ _ _ _ _ R1) as [new1 [ext1 [T1 [_ F1]]]].
  destruct (only_asks_readers _ _ F1) as [C1 D1].
  simpl in T1.
  assert (Early : forall (res' : result outcome), s' = s1 -> (forall l e1 e2, res' = ROk (l, false, e1, e2) -> d = O) ->
     exists new, trace s' = trace s ++ new /\ calls_of new = [id; j] /\
       (exists k, repair_depths new = firstn k (countdown d)) /\
       (forall l e1 e2, res' = ROk (l, false, e1, e2) -> repair_depths new = countdown d)).
  { intros res' -> Hd. exists (ECall id :: ECall j :: new1).
    rewrite T1, <- app_assoc. split; [reflexivity|].
    split; [simpl; rewrite C1; reflexivity|].
    split; [exists O; simpl; rewrite D1; reflexivity|].
    intros l e1 e2 E. rewrite (Hd l e1 e2 E). simpl. rewrite D1. reflexivity. }
  destruct r1 as [[[[reply ok] e1] e2]|e].
  2:{ injection H as <- <-. apply (Early (RExn e)); [reflexivity|discriminate]. }
  destruct (ok || Nat.eqb d 0) eqn:OK.
  { injection H as <- <-. apply (Early _ eq_refl).
    intros l e1' e2' E. injection E as _ E' _ _. subst ok. simpl in OK.
    apply Nat.eqb_eq. exact OK. }
  destruct (nth_error (heap s1) reply) as [cur|] eqn:N.
  2:{ injection H as <- <-. apply (Early (RExn "IndexError")); [reflexivity|discriminate]. }
  destruct (repair (SBase j p a r) (prompt_of (SBase j p a r)) rr mode tm (length (heap s1)) d
              (MkSt (heap s1 ++ [cur]) (trace s1))) as [s3 r3] eqn:R.
  destruct (repair_spec _ _ _ _ _ _ _ _ _ _ R) as [new2 [T2 [C2 [[k K2] [F2 _]]]]].
  simpl in T2.
  exists (ECall id :: ECall j :: new1 ++ new2).
  assert (Tr : trace s3 = trace s ++ ECall id :: ECall j :: new1 ++ new2)
    by (rewrite T2, T1, <- !app_assoc; reflexivity).
  assert (Cl : calls_of (ECall id :: ECall j :: new1 ++ new2) = [id; j])
    by (simpl; rewrite calls_of_app, C1, C2; reflexivity).
  assert (Dp : repair_depths (ECall id :: ECall j :: new1 ++ new2) = repair_depths new2)
    by (simpl; rewrite repair_depths_app, D1; reflexivity).
  destruct r3 as [[|]|e]; injection H as <- <-; rewrite Dp;
    (split; [exact Tr|]); (split; [exact Cl|]); (split; [exists k; exact K2|]).
  - intros l e1' e2' E. discriminate E.
  - intros l e1' e2' E. apply F2. reflexivity.
  - intros l e1' e2' E. discriminate E.
Qed.

(** C7: a [BaseStrategy] with [r] retries calls its generator at most
    [r+1] times and does nothing else; on success the last reply is the
    first one that validates, all earlier ones being invalid, and both
    errors are [None]; on failure there were exactly [r+1] calls, all
    replies are invalid and the errors are those of the last reply. *)
Theorem base_strategy_retries id p a r tm s s' res :
  run (SBase id p a r) tm s = (s', res) ->
  exists new,
    trace s' = trace s ++ ECall id :: new /\
    Forall (fun ev => exists txt l, ev = EAsk a txt l) new /\
    length new <= S r /\
    (forall l e1 e2, res = ROk (l, true, e1, e2) ->
       e1 = None /\ e2 = None /\
       exists prev, ask_locs new = prev ++ [l] /\ validate_at p s' l = ROk None
                    /\ Forall (fun l' => exists e, validate_at p s' l' = ROk (Some e)) prev) /\
    (forall l e1 e2, res = ROk (l, false, e1, e2) ->
       length new = S r /\
       exists prev sh lg, ask_locs new = prev ++ [l]
         /\ validate_at p s' l = ROk (Some (sh, lg)) /\ e1 = Some sh /\ e2 = Some lg
         /\ Forall (fun l' => exists e, validate_at p s' l' = ROk (Some e)) prev).
Proof.
  cbn [run]. unfold mbind at 1, emit, run_base, mbind, lift. intros H.
  destruct (render p tm) as [txt|e].
  - destruct (base_loop_spec p a txt r _ s' res H) as [new [ext [T [_ [F [L [OK KO]]]]]]].
    exists new. simpl in T. rewrite T, <- app_assoc.
    split; [reflexivity|]. split.
    + eapply Forall_impl; [|exact F]. intros ev [l ->]. eauto.
    + split; [exact L|]. split; [exact OK | exact KO].
  - injection H as <- <-. exists []. simpl.
    split; [reflexivity|]. split; [constructor|]. split; [lia|].
    split; intros l e1 e2 E; discriminate E.
Qed.

End StrategyProps.

(** ** Runs with the demonstration collaborators *)

Section DemoRuns.
Local Open Scope nat_scope.
Local Open Scope list_scope.

(** C7, witness: a [BaseStrategy] with two retries whose generator always
    answers [{x: 50}]. *)
Lemma base_strategy_retries_witness :
  exists new,
    trace (fst (@run demo_collab (SBase 1 (prompt_of demo_base) 0 2) [] empty_st))
    = trace empty_st ++ ECall 1 :: new
    /\ length new <= 3
    /\ length new = 3.
Proof.
  destruct (@base_strategy_retries demo_collab 1 (prompt_of demo_base) 0 2 [] empty_st
              (fst (@run demo_collab (SBase 1 (prompt_of demo_base) 0 2) [] empty_st))
              (snd (@run demo_collab (SBase 1 (prompt_of demo_base) 0 2) [] empty_st))
              ltac:(vm_compute; reflexivity))
    as [new [T [_ [L [_ KO]]]]].
  exists new. split; [exact T|]. split; [exact L|].
  destruct (KO 2 (Some demo_short) (Some demo_long) ltac:(vm_compute; reflexivity))
    as [N _].
  exact N.
Defined.

(** C3, counterexample: [AutoRepair] of depth 1 over [demo_base]; the
    inner strategy's reply is cell 0, and the failed [AutoRepair] returns
    cell 0 again: the inner strategy's own reply object, not a copy. *)
Lemma autorepair_returns_inner_object :
  snd (@run demo_collab demo_base [] (enter 2 empty_st))
  = ROk (0, false, Some demo_short, Some demo_long)
  /\ snd (@run demo_collab (SAutoRepair 2 demo_base 1 "full" 0) [] empty_st)
     = ROk (0, false, Some demo_short, Some demo_long).
Proof. split; vm_compute; reflexivity. Qed.

(** C3, witness. *)
Lemma autorepair_failure_returns_inner_reply_witness :
  exists s1,
    @run demo_collab demo_base [] (enter 2 empty_st)
    = (s1, ROk (0, false, Some demo_short, Some demo_long))
    /\ nth_error (heap (fst (@run demo_collab (SAutoRepair 2 demo_base 1 "full" 0) [] empty_st))) 0
       = nth_error (heap s1) 0.
Proof.
  apply (proj2 (@autorepair_failure_returns_inner_reply demo_collab 2 demo_base 1 "full" 0
                  [] empty_st)).
  vm_compute. reflexivity.
Defined.

(** C4, counterexample: [AutoRepair] of depth 2 over [demo_base] fails
    after two repair rounds (at remaining depths 2 and 1), while the inner
    strategy (object 1) was invoked once only. *)
Lemma autorepair_repairs_without_rerun :
  let '(s', r) := @run demo_collab (SAutoRepair 2 demo_base 2 "full" 0) [] empty_st in
  calls_of (trace s') = [2; 1] /\ repair_depths (trace s') = [2; 1]
  /\ r = ROk (0, false, Some demo_short, Some demo_long).
Proof. vm_compute. repeat split. Qed.

(** C4, witness. *)
Lemma autorepair_inner_runs_once_witness :
  exists new,
    trace (fst (@run demo_collab (SAutoRepair 2 demo_base 2 "full" 0) [] empty_st))
    = trace empty_st ++ new
    /\ calls_of new = [2; 1]
    /\ repair_depths new = countdown 2.
Proof.
  destruct (@autorepair_inner_runs_once demo_collab 2 1 (prompt_of demo_base) 0 0 2 "full" 0
              [] empty_st
              (fst (@run demo_collab (SAutoRepair 2 demo_base 2 "full" 0) [] empty_st))
              (snd (@run demo_collab (SAutoRepair 2 demo_base 2 "full" 0) [] empty_st))
              ltac:(vm_compute; reflexivity))
    as [new [T [Cl [_ F]]]].
  exists new. split; [exact T|]. split; [exact Cl|].
  exact (F 0 (Some demo_short) (Some demo_long) ltac:(vm_compute; reflexivity)).
Defined.

End DemoRuns.

(** ** Synthesised examples *)

Lemma examples_loop_ok (ts : list ty) :
  Forall (fun t => exists v, example_for_type t = ROk v
                   /\ forall key prefix, validate_value key v t prefix = ROk None) ts ->
  exists vs, examples_loop example_for_type ts = ROk vs
             /\ Forall2 (fun t v => forall key prefix, validate_value key v t prefix = ROk None) ts vs.
Proof.
  induction 1 as [|t ts [v [E V]] _ [vs [Es Vs]]]; simpl.
  - exists []. split; [reflexivity | constructor].
  - rewrite E, Es. exists (v :: vs). split; [reflexivity | constructor; assumption].
Qed.

Lemma tuple_loop_ok (vv : string -> value -> ty -> result verr) (ts : list ty) (vs : list value) :
  Forall2 (fun t v => forall key, vv key v t = ROk None) ts vs ->
  forall key i, tuple_loop vv key i vs ts = ROk None.
Proof.
  induction 1 as [|t v ts vs Hv _ IH]; intros key i; simpl; [reflexivity|].
  rewrite Hv. simpl. apply IH.
Qed.

Lemma union_example_first (a : ty) (rest : list ty) :
  is_optional (TUnion (a :: rest)) = false ->
  example_for_type (TUnion (a :: rest)) = example_for_type a.
Proof.
  intros H. destruct rest as [|b [|c rest]]; try reflexivity.
  simpl in H |- *. rewrite H. reflexivity.
Qed.

Lemma fields_example_ok (fs : list (string * ty)) :
  Forall (fun p => exists v, example_for_type (snd p) = ROk v
                   /\ forall key prefix, validate_value key v (snd p) prefix = ROk None) fs ->
  exists d, fields_example example_for_type fs = ROk d
            /\ List.map fst d = List.map fst fs
            /\ Forall2 (fun p q => fst p = fst q
                                   /\ validate_value (fst q) (snd q) (snd p) "" = ROk None) fs d.
Proof.
  induction 1 as [|[n t] fs [v [E V]] _ [d [Ed [Kd Fd]]]]; simpl.
  - exists []. split; [reflexivity|]. split; [reflexivity | constructor].
  - simpl in E, V. rewrite E, Ed. exists ((n, v) :: d).
    split; [reflexivity|]. split; [simpl; rewrite Kd; reflexivity|].
    constructor; [split; [reflexivity | apply V] | exact Fd].
Qed.

Lemma dict_get_nodup (d : dict) (k : string) (v : value) :
  NoDup (List.map fst d) -> In (k, v) d -> dict_get k d = Some v.
Proof.
  induction d as [|[k' v'] d IH]; simpl; [contradiction|].
  intros Hn [E|Hin]; inversion Hn as [|? ? Hk Hn']; subst.
  - injection E as -> ->. rewrite String.eqb_refl. reflexivity.
  - destruct (String.eqb k' k) eqn:Ek.
    + apply String.eqb_eq in Ek. subst k'. exfalso. apply Hk.
      apply (in_map fst _ (k, v) Hin).
    + apply IH; assumption.
Qed.

Lemma fields_all_ok (fs : list (string * ty)) (d : dict) :
  NoDup (List.map fst d) ->
  Forall2 (fun p q => fst p = fst q
                      /\ validate_value (fst q) (snd q) (snd p) "" = ROk None) fs d ->
  Forall (field_ok d) fs.
Proof.
  intros Hn H.
  assert (G : forall d', incl d' d ->
            Forall2 (fun p q => fst p = fst q
                                /\ validate_value (fst q) (snd q) (snd p) "" = ROk None) fs d' ->
            Forall (field_ok d) fs).
  { intros d' Hi H'. clear H. revert Hi.
    induction H' as [|[n t] [k v] fs d' [E V] _ IH]; intros Hi; constructor.
    - simpl in E, V. subst k. right. exists v. split; [|exact V].
      apply dict_get_nodup; [exact Hn | apply Hi; left; reflexivity].
    - apply IH. intros q Hq. apply Hi. right. exact Hq. }
  apply (G d); [apply incl_refl | exact H].
Qed.

Lemma Forall_apply {A} (P Q : A -> Prop) (l : list A) :
  Forall (fun x => P x -> Q x) l -> Forall P l -> Forall Q l.
Proof. induction 1; inversion 1; constructor; auto. Qed.

Lemma plain_examples_validate :
  (forall t, plain_ty t ->
     exists v, example_for_type t = ROk v
               /\ forall key prefix, validate_value key v t prefix = ROk None)
  /\ (forall s, plain_schema s ->
        exists d, schema_example s = ROk d /\ validate_with_error s d = ROk None).
Proof.
  set (P := fun t => plain_ty t ->
              exists v, example_for_type t = ROk v
                        /\ forall key prefix, validate_value key v t prefix = ROk None).
  set (Q := fun s => plain_schema s ->
              exists d, schema_example s = ROk d /\ validate_with_error s d = ROk None).
  assert (Prim : forall t v, example_for_type t = ROk v ->
            (forall key prefix, validate_value key v t prefix = ROk None) -> P t)
    by (intros t v E V _; exists v; auto).
  assert (HRule : forall r, P (TRule r)).
  { intros r Hp. inversion Hp as [| | | | | | r' Hr| | | | |]; subst.
    exists (r_example r). split; [reflexivity|].
    intros key prefix. simpl. rewrite Hr. reflexivity. }
  assert (HList : forall e, P e -> P (TList e)).
  { intros e IH Hp. inversion Hp; subst.
    destruct (IH H0) as [v [E V]]. exists (VList [v]).
    split; [simpl; rewrite E; reflexivity|].
    intros key prefix. simpl. rewrite V. reflexivity. }
  assert (HTuple : forall ts, Forall P ts -> P (TTuple ts)).
  { intros ts IH Hp. inversion Hp; subst.
    destruct (examples_loop_ok ts (Forall_apply _ _ _ IH H0)) as [vs [Es Vs]].
    exists (VList vs). split; [simpl; rewrite Es; reflexivity|].
    intros key prefix. simpl.
    rewrite (Forall2_length Vs), Nat.eqb_refl.
    apply tuple_loop_ok.
    eapply Forall2_impl; [|exact Vs]. intros t v H k. apply H. }
  assert (HUnion : forall ts, Forall P ts -> P (TUnion ts)).
  { intros ts IH Hp. inversion Hp as [| | | | | | | | | |ts' Hne Hts|]; subst.
    pose proof (Forall_apply _ _ _ IH Hts) as F.
    destruct ts as [|a rest]; [contradiction|].
    inversion F as [|? ? [va [Ea Va]] Frest]; subst.
    destruct (is_optional (TUnion (a :: rest))) eqn:O.
    - destruct rest as [|b [|c rest]]; simpl in O; try discriminate.
      inversion Frest as [|? ? [vb [Eb Vb]] _]; subst.
      destruct (is_none_ty a) eqn:Na.
      + exists vb. split; [simpl; rewrite Na; exact Eb|].
        intros key prefix. simpl. rewrite Na. simpl.
        destruct vb; try reflexivity; apply Vb.
      + simpl in O. exists va. split; [simpl; rewrite Na, O; exact Ea|].
        intros key prefix. simpl. rewrite Na, O.
        destruct va; try reflexivity; apply Va.
    - exists va. split; [rewrite union_example_first by exact O; exact Ea|].
      intros key prefix. rewrite union_not_optional by exact O.
      simpl. rewrite Va. reflexivity. }
  assert (HSchema : forall s, Q s -> P (TSchema s)).
  { intros s IH Hp. inversion Hp; subst.
    destruct (IH H0) as [d [Ed Vd]]. exists (VDict d).
    split; [simpl; rewrite Ed; reflexivity|].
    intros key prefix. simpl. rewrite Vd. reflexivity. }
  assert (HMk : forall name fs cs ov, Forall (fun p => P (snd p)) fs -> Q (MkSchema name fs cs ov)).
  { intros name fs cs ov IH Hp. inversion Hp as [name' fs' Hnd Hfs]; subst.
    destruct (fields_example_ok fs (Forall_apply _ _ _ IH Hfs)) as [d [Ed [Kd Fd]]].
    exists d. split; [simpl; rewrite Ed; reflexivity|].
    rewrite validate_with_error_eq.
    assert (U : unexpected_key fs (List.map fst d) = None).
    { apply unexpected_key_none. rewrite Kd. apply Forall_forall. auto. }
    rewrite U.
    assert (ND : NoDup (List.map fst d)) by (rewrite Kd; exact Hnd).
    rewrite (proj2 (field_loop_none_iff _ _ _) (fields_all_ok fs d ND Fd)).
    reflexivity. }
  assert (HStr : P TStr) by (eapply Prim; [reflexivity | intros; reflexivity]).
  assert (HInt : P TInt) by (eapply Prim; [reflexivity | intros; reflexivity]).
  assert (HFloat : P TFloat) by (eapply Prim; [reflexivity | intros; reflexivity]).
  assert (HBool : P TBool) by (eapply Prim; [reflexivity | intros; reflexivity]).
  assert (HNone : P TNoneType) by (eapply Prim; [reflexivity | intros; reflexivity]).
  assert (HAny : P TAny) by (eapply Prim; [reflexivity | intros; reflexivity]).
  assert (HBare : P TListBare) by (eapply Prim; [reflexivity | intros; reflexivity]).
  split.
  - exact (ty_ind' P Q HStr HInt HFloat HBool HNone HAny HRule HList HBare
             HTuple HUnion HSchema HMk).
  - exact (schema_ind' P Q HStr HInt HFloat HBool HNone HAny HRule HList HBare
             HTuple HUnion HSchema HMk).
Qed.

(** C1, counterexample: the docstring's [MySchema] has a parity
    constraint whose fix leaves the example as it is; the example
    [{x: 42, y: 42}] violates the constraint, so it does not validate. *)
Lemma parity_example_fails :
  schema_example ParitySchema = ROk [("x", VInt 42); ("y", VInt 42)]
  /\ validate_with_error ParitySchema [("x", VInt 42); ("y", VInt 42)]
     = ROk (Some (quoted "y" ++ " violates constraint.", quoted "y" ++ " " ++ parity_desc)).
Proof. split; vm_compute; reflexivity. Qed.

(** C1: for every plain schema (rules accept their own examples, unions
    have a member, field names are distinct, and no schema at any depth
    declares cross-field constraints or example overrides), [example()]
    returns a record that [validate_with_error] accepts. *)
Theorem plain_example_self_validates (s : schema) :
  plain_schema s ->
  exists ex, schema_example s = ROk ex /\ validate_with_error s ex = ROk None.
Proof. exact (proj2 plain_examples_validate s). Qed.

(** C1, witness: the schema [Mixed], with a list, an optional rule, a
    tuple, a three-member union, a nested schema and a rule field. *)
Lemma plain_example_self_validates_witness :
  plain_schema Mixed
  /\ exists ex, schema_example Mixed = ROk ex /\ validate_with_error Mixed ex = ROk None.
Proof.
  assert (H : plain_schema Mixed).
  { constructor.
    - repeat constructor; simpl; intuition discriminate.
    - repeat constructor; try discriminate; simpl; intuition discriminate. }
  split; [exact H|].
  exact (plain_example_self_validates Mixed H).
Defined.


(* ================================================================== *)
(** * Further properties *)


Lemma list_loop_none_iff vv key l : forall i,
  list_loop vv key i l = ROk None <->
  forall j v, nth_error l j = Some v -> vv (key ++ "[" ++ str_nat (i + j) ++ "]") v = ROk None.
Proof.
  induction l as [|v l IH]; intros i; cbn [list_loop].
  - split; [intros _ j v H; destruct j; discriminate | reflexivity].
  - destruct (vv (key ++ "[" ++ str_nat i ++ "]") v) as [[e|]|e] eqn:V; cbn [rbind].
    + split; [discriminate|]. intros H. specialize (H O v eq_refl).
      rewrite Nat.add_0_r, V in H. discriminate.
    + rewrite IH. split.
      * intros H [|j] w Hw; simpl in Hw.
        -- injection Hw as <-. rewrite Nat.add_0_r. exact V.
        -- rewrite <- Nat.add_succ_comm. apply H. exact Hw.
      * intros H j w Hw. rewrite Nat.add_succ_comm. apply H. exact Hw.
    + split; [discriminate|]. intros H. specialize (H O v eq_refl).
      rewrite Nat.add_0_r, V in H. discriminate.
Qed.

Lemma list_loop_first vv key pre v post err : forall i,
  (forall j w, nth_error pre j = Some w -> vv (key ++ "[" ++ str_nat (i + j) ++ "]") w = ROk None) ->
  vv (key ++ "[" ++ str_nat (i + length pre) ++ "]") v = ROk (Some err) ->
  list_loop vv key i (pre ++ v :: post)%list = ROk (Some err).
Proof.
  induction pre as [|w pre IH]; intros i Hpre Hv; cbn [list_loop app length].
  - rewrite Nat.add_0_r in Hv. rewrite Hv. reflexivity.
  - pose proof (Hpre O w eq_refl) as Hw. rewrite Nat.add_0_r in Hw. rewrite Hw. cbn [rbind].
    apply IH.
    + intros j u Hu. rewrite Nat.add_succ_comm. apply (Hpre (S j)). exact Hu.
    + cbn [length] in Hv; rewrite <- Nat.add_succ_comm in Hv. exact Hv.
Qed.

(** X1: a list is valid under [List[T]] exactly when every element [i]
    is valid under [T] at the key [key[i]]; otherwise the error of the
    first invalid element is the result. *)
Theorem list_validation key e prefix l :
  (validate_value key (VList l) (TList e) prefix = ROk None <->
   forall i v, nth_error l i = Some v ->
     validate_value (key ++ "[" ++ str_nat i ++ "]") v e prefix = ROk None)
  /\ (forall pre v post err, l = (pre ++ v :: post)%list ->
        (forall i w, nth_error pre i = Some w ->
           validate_value (key ++ "[" ++ str_nat i ++ "]") w e prefix = ROk None) ->
        validate_value (key ++ "[" ++ str_nat (length pre) ++ "]") v e prefix = ROk (Some err) ->
        validate_value key (VList l) (TList e) prefix = ROk (Some err)).
Proof.
  cbn [validate_value]. split.
  - exact (list_loop_none_iff (fun k v => validate_value k v e prefix) key l O).
  - intros pre v post err -> Hpre Hv.
    apply (list_loop_first (fun k v => validate_value k v e prefix) key pre v post err O);
      [exact Hpre | exact Hv].
Qed.

Lemma list_validation_witness :
  validate_value "y" (VList [VStr "a"; VInt 1; VNone]) (TList TStr) ""
  = ROk (Some (quoted "y[1]" ++ " must be string", quoted "y[1]" ++ " must be string")).
Proof.
  apply (proj2 (list_validation "y" TStr "" _) [VStr "a"] (VInt 1) [VNone]); [reflexivity| |reflexivity].
  intros [|i] w H; simpl in H; [injection H as <-; reflexivity | destruct i; discriminate].
Defined.

Lemma tuple_loop_none_iff vv key ts : forall l i,
  tuple_loop vv key i l ts = ROk None <->
  forall j v t, nth_error l j = Some v -> nth_error ts j = Some t ->
    vv (key ++ "[" ++ str_nat (i + j) ++ "]") v t = ROk None.
Proof.
  induction ts as [|t ts IH]; intros l i.
  - destruct l; cbn [tuple_loop]; (split; [intros _ j w u _ Ht; destruct j; discriminate | reflexivity]).
  - destruct l as [|v l]; cbn [tuple_loop].
    + split; [intros _ j w u Hw; destruct j; discriminate | reflexivity].
    + destruct (vv (key ++ "[" ++ str_nat i ++ "]") v t) as [[e|]|e] eqn:V; cbn [rbind].
      * split; [discriminate|]. intros H. specialize (H O v t eq_refl eq_refl).
        rewrite Nat.add_0_r, V in H. discriminate.
      * rewrite IH. split.
        -- intros H [|j] w u Hw Hu; simpl in Hw, Hu.
           ++ injection Hw as <-. injection Hu as <-. rewrite Nat.add_0_r. exact V.
           ++ rewrite <- Nat.add_succ_comm. apply H; assumption.
        -- intros H j w u Hw Hu. rewrite Nat.add_succ_comm. apply H; assumption.
      * split; [discriminate|]. intros H. specialize (H O v t eq_refl eq_refl).
        rewrite Nat.add_0_r, V in H. discriminate.
Qed.

(** X2: a list or tuple is valid under [Tuple[T1, ..., Tn]] exactly when
    it has [n] components and component [i] is valid under [Ti] at the key
    [key[i]]. *)
Theorem tuple_validation key ts prefix l :
  forall c, c = VList l \/ c = VTuple l ->
  (validate_value key c (TTuple ts) prefix = ROk None <->
   length l = length ts /\
   forall i v t, nth_error l i = Some v -> nth_error ts i = Some t ->
     validate_value (key ++ "[" ++ str_nat i ++ "]") v t prefix = ROk None).
Proof.
  intros c Hc.
  assert (E : validate_value key c (TTuple ts) prefix =
    if Nat.eqb (length l) (length ts) then
      tuple_loop (fun k v t => validate_value k v t prefix) key O l ts
    else ROk (Some (quoted (prefix ++ key) ++ " must have length " ++ str_nat (length ts)
                    ++ ", got " ++ str_nat (length l),
                    quoted (prefix ++ key) ++ " must be length-" ++ str_nat (length ts)
                    ++ " tuple")))
    by (destruct Hc as [-> | ->]; reflexivity).
  rewrite E. destruct (Nat.eqb (length l) (length ts)) eqn:L.
  - apply Nat.eqb_eq in L. rewrite (tuple_loop_none_iff (fun k v t => validate_value k v t prefix) key ts l O).
    split; [intros H; split; [exact L | exact H] | intros [_ H]; exact H].
  - apply Nat.eqb_neq in L. split; [discriminate | intros [L' _]; contradiction].
Qed.

Lemma tuple_validation_witness :
  (VTuple [VBool true; VFloat (1 # 2)] = VList [VBool true; VFloat (1 # 2)]
   \/ VTuple [VBool true; VFloat (1 # 2)] = VTuple [VBool true; VFloat (1 # 2)])
  /\ (validate_value "t" (VTuple [VBool true; VFloat (1 # 2)]) (TTuple [TBool; TFloat]) "" = ROk None
      <-> length [VBool true; VFloat (1 # 2)] = length [TBool; TFloat]
          /\ forall i v t, nth_error [VBool true; VFloat (1 # 2)] i = Some v ->
               nth_error [TBool; TFloat] i = Some t ->
               validate_value ("t" ++ "[" ++ str_nat i ++ "]") v t "" = ROk None).
Proof.
  split; [right; reflexivity|].
  apply (tuple_validation "t" [TBool; TFloat] "" [VBool true; VFloat (1 # 2)]).
  right; reflexivity.
Defined.

(** X3: for a type [T] that is neither [None] nor a union ([typing]
    flattens [Optional] of those into something else), [None] passes
    [Optional[T]], written either way round, and any other value is
    checked by [Optional[T]] exactly as by [T]. *)
Theorem optional_validation key t prefix v :
  t <> TNoneType -> (forall ts, t <> TUnion ts) ->
  validate_value key VNone (TUnion [t; TNoneType]) prefix = ROk None
  /\ validate_value key VNone (TUnion [TNoneType; t]) prefix = ROk None
  /\ (v <> VNone ->
      validate_value key v (TUnion [t; TNoneType]) prefix = validate_value key v t prefix
      /\ validate_value key v (TUnion [TNoneType; t]) prefix = validate_value key v t prefix).
Proof.
  intros _ _.
  cbn [validate_value is_none_ty]. rewrite Bool.orb_true_r. simpl.
  split; [reflexivity|]. split; [reflexivity|].
  intros Hv. destruct v; try (exfalso; apply Hv; reflexivity);
  (split; [destruct t; simpl; reflexivity | reflexivity]).
Qed.

Lemma optional_validation_witness :
  TRule (Interval 0 10) <> TNoneType /\ (forall ts, TRule (Interval 0 10) <> TUnion ts) /\
  VInt 50 <> VNone /\
  validate_value "z" (VInt 50) (TUnion [TRule (Interval 0 10); TNoneType]) ""
  = validate_value "z" (VInt 50) (TRule (Interval 0 10)) "".
Proof.
  split; [discriminate|]. split; [intros ts; discriminate|]. split; [discriminate|].
  apply (optional_validation "z" (TRule (Interval 0 10)) "" (VInt 50));
    [discriminate | intros ts; discriminate | discriminate].
Defined.

Lemma unexpected_key_remove pre n t post keys :
  ~ In n keys ->
  unexpected_key (pre ++ (n, t) :: post) keys = unexpected_key (pre ++ post) keys.
Proof.
  induction keys as [|k keys IH]; intros Hn; simpl; [reflexivity|].
  assert (E : existsb (fun p => String.eqb (fst p) k) (pre ++ (n, t) :: post)
            = existsb (fun p => String.eqb (fst p) k) (pre ++ post)).
  { rewrite !existsb_app. simpl.
    destruct (String.eqb n k) eqn:K; [|reflexivity].
    apply String.eqb_eq in K. subst. exfalso. apply Hn. left. reflexivity. }
  rewrite E, IH; [reflexivity|]. intros H. apply Hn. right. exact H.
Qed.

Lemma dict_get_none_not_in k d : dict_get k d = None -> ~ In k (List.map fst d).
Proof.
  induction d as [|[k' v] d IH]; simpl; [auto|].
  destruct (String.eqb k' k) eqn:K; [discriminate|].
  apply String.eqb_neq in K. intros H [E|E]; [congruence | exact (IH H E)].
Qed.

Lemma field_loop_remove vv data pre n t post :
  dict_get n data = None -> is_optional t = true ->
  field_loop vv data (pre ++ (n, t) :: post) = field_loop vv data (pre ++ post).
Proof.
  intros G O. induction pre as [|[m u] pre IH]; simpl.
  - rewrite G, O. reflexivity.
  - destruct (dict_get m data) as [v|]; [|rewrite IH; reflexivity].
    destruct (vv m v u) as [[e|]|e]; simpl; [reflexivity| exact IH | reflexivity].
Qed.

(** X4: a field of optional type that the data does not contain changes
    nothing: validating with the field declared is validating without it. *)
Theorem absent_optional_field_ignored nm pre n t post cs ov d :
  dict_get n d = None -> is_optional t = true ->
  validate_with_error (MkSchema nm (pre ++ (n, t) :: post) cs ov) d
  = validate_with_error (MkSchema nm (pre ++ post) cs ov) d.
Proof.
  intros G O. rewrite !validate_with_error_eq.
  rewrite unexpected_key_remove by (apply dict_get_none_not_in; exact G).
  rewrite field_loop_remove by assumption. reflexivity.
Qed.

Lemma absent_optional_field_ignored_witness :
  dict_get "z" [("x", VInt 1)] = None /\ is_optional (TUnion [TInt; TNoneType]) = true /\
  validate_with_error (MkSchema "S" ([("x", TInt)] ++ ("z", TUnion [TInt; TNoneType]) :: []) [] [])
    [("x", VInt 1)]
  = validate_with_error (MkSchema "S" ([("x", TInt)] ++ []) [] []) [("x", VInt 1)].
Proof.
  split; [reflexivity|]. split; [reflexivity|].
  apply absent_optional_field_ignored; reflexivity.
Defined.


(** ** Strings *)

Lemma str_app_assoc (a b c : string) : (a ++ b) ++ c = a ++ b ++ c.
Proof. induction a as [|x a IH]; simpl; [reflexivity | rewrite IH; reflexivity]. Qed.

Lemma str_length_app (a b : string) : String.length (a ++ b) = (String.length a + String.length b)%nat.
Proof. induction a as [|x a IH]; simpl; [reflexivity | rewrite IH; reflexivity]. Qed.

Lemma substring_app_l (p s : string) : substring 0 (String.length p) (p ++ s) = p.
Proof. induction p as [|x p IH]; simpl; [destruct s; reflexivity | rewrite IH; reflexivity]. Qed.

Lemma substring_app_r (p s : string) n m :
  substring (String.length p + n) m (p ++ s) = substring n m s.
Proof. induction p as [|x p IH]; simpl; [reflexivity | exact IH]. Qed.

Lemma substring_all (s : string) : substring 0 (String.length s) s = s.
Proof. induction s as [|x s IH]; simpl; [reflexivity | rewrite IH; reflexivity]. Qed.

Lemma index_no_dq (p r : string) :
  String.index 0 dq p = None ->
  String.index 0 dq (p ++ dq ++ r) = Some (String.length p).
Proof.
  induction p as [|x p IH]; intros H.
  - simpl. destruct r; reflexivity.
  - assert (U : forall t, String.index 0 dq (String x t)
               = if String.prefix dq (String x t) then Some O
                 else match String.index 0 dq t with Some n => Some (S n) | None => None end)
      by reflexivity.
    assert (Pf : forall t, String.prefix dq (String x t)
                = if Ascii.ascii_dec (ascii_of_nat 34) x then true else false)
      by (intros t; unfold dq;
          change (String.prefix (String (ascii_of_nat 34) EmptyString) (String x t))
            with (match Ascii.ascii_dec (ascii_of_nat 34) x with
                  | left _ => String.prefix EmptyString t | right _ => false end);
          destruct (Ascii.ascii_dec (ascii_of_nat 34) x);
          [destruct t; reflexivity | reflexivity]).
    change (String x p ++ dq ++ r) with (String x (p ++ dq ++ r)).
    rewrite U, Pf in *.
    destruct (Ascii.ascii_dec (ascii_of_nat 34) x); [discriminate H|].
    destruct (String.index 0 dq p); [discriminate H|].
    rewrite (IH eq_refl). reflexivity.
Qed.

Lemma prepend_outer_path_quoted full p r :
  String.index 0 dq p = None ->
  prepend_outer_path full (quoted p ++ r)
  = if String.prefix (full ++ ".") p then quoted p ++ r
    else quoted (full ++ "." ++ p) ++ r.
Proof.
  intros H.
  assert (M : quoted p ++ r = String (ascii_of_nat 34) (p ++ dq ++ r))
    by (unfold quoted; rewrite !str_app_assoc; reflexivity).
  unfold prepend_outer_path. rewrite M.
  cbn [starts_with_dq]. rewrite Ascii.eqb_refl.
  change (String.index 1 dq (String (ascii_of_nat 34) (p ++ dq ++ r)))
    with (match String.index 0 dq (p ++ dq ++ r) with Some n => Some (S n) | None => None end).
  rewrite index_no_dq by exact H.
  replace (S (String.length p) - 1)%nat with (String.length p) by lia.
  change (substring 1 (String.length p) (String (ascii_of_nat 34) (p ++ dq ++ r)))
    with (substring 0 (String.length p) (p ++ dq ++ r)).
  rewrite substring_app_l.
  destruct (String.prefix (full ++ ".") p); [reflexivity|].
  f_equal.
  - assert (L : (String.length (String (ascii_of_nat 34) (p ++ dq ++ r))
                   - (S (String.length p) + 1))%nat = String.length r)
      by (cbn [String.length]; rewrite !str_length_app; cbn [String.length dq]; lia).
    rewrite L.
    transitivity (substring (String.length p + 1) (String.length r) (p ++ dq ++ r));
      [reflexivity|].
    rewrite substring_app_r. exact (substring_all r).
Qed.

(** X5: when both errors of a nested record start with the quoted field
    path [p] (with no double quote inside), they are reported under
    [prefix + key + "." + p]: the short message always, the long one unless
    [p] already starts with [prefix + key + "."]. *)
Theorem nested_error_paths key prefix s d p r1 r2 :
  String.index 0 dq p = None ->
  validate_with_error s d = ROk (Some (quoted p ++ r1, quoted p ++ r2)) ->
  validate_value key (VDict d) (TSchema s) prefix
  = ROk (Some (quoted (prefix ++ key ++ "." ++ p) ++ r1,
               if String.prefix (prefix ++ key ++ ".") p then quoted p ++ r2
               else quoted (prefix ++ key ++ "." ++ p) ++ r2)).
Proof.
  intros Hp H. cbn [validate_value]. rewrite H. cbn [rbind nest_error].
  unfold quoted at 1. unfold dq at 1. cbn [String.append starts_with_dq].
  rewrite Ascii.eqb_refl.
  rewrite <- (str_app_assoc prefix key), prepend_outer_path_quoted by exact Hp.
  rewrite !str_app_assoc. f_equal. f_equal. f_equal.
  unfold quoted, drop1, dq. cbn [String.append]. rewrite !str_app_assoc. reflexivity.
Qed.

Lemma nested_error_paths_witness :
  String.index 0 dq "k" = None
  /\ validate_with_error Inner [("k", VInt 1); ("w", VFloat 1)]
     = ROk (Some (quoted "k" ++ " must be boolean", quoted "k" ++ " must be boolean"))
  /\ validate_value "n" (VDict [("k", VInt 1); ("w", VFloat 1)]) (TSchema Inner) ""
     = ROk (Some (quoted ("" ++ "n" ++ "." ++ "k") ++ " must be boolean",
                  if String.prefix ("" ++ "n" ++ ".") "k" then quoted "k" ++ " must be boolean"
                  else quoted ("" ++ "n" ++ "." ++ "k") ++ " must be boolean")).
Proof.
  split; [reflexivity|]. split; [reflexivity|].
  apply nested_error_paths; reflexivity.
Defined.

(** ** Validation without exceptions *)

Lemma list_loop_total vv key l :
  (forall k v, In v l -> exists r, vv k v = ROk r) ->
  forall i, exists r, list_loop vv key i l = ROk r.
Proof.
  induction l as [|v l IH]; intros H i; cbn [list_loop]; [eexists; reflexivity|].
  destruct (H (key ++ "[" ++ str_nat i ++ "]") v (or_introl eq_refl)) as [[e|] E];
    rewrite E; cbn [rbind]; [eexists; reflexivity|].
  apply IH. intros k w Hw. apply H. right. exact Hw.
Qed.

Lemma tuple_loop_total vv key ts :
  (forall k v t, In t ts -> exists r, vv k v t = ROk r) ->
  forall l i, exists r, tuple_loop vv key i l ts = ROk r.
Proof.
  induction ts as [|t ts IH]; intros H l i.
  - destruct l; eexists; reflexivity.
  - destruct l as [|v l]; cbn [tuple_loop]; [eexists; reflexivity|].
    destruct (H (key ++ "[" ++ str_nat i ++ "]") v t (or_introl eq_refl)) as [[e|] E];
      rewrite E; cbn [rbind]; [eexists; reflexivity|].
    apply IH. intros k w u Hu. apply H. right. exact Hu.
Qed.

Lemma union_loop_total vv full ts :
  (forall t, In t ts -> exists r, vv t = ROk r) ->
  forall parts, exists r, union_loop vv full ts parts = ROk r.
Proof.
  induction ts as [|t ts IH]; intros H parts; cbn [union_loop]; [eexists; reflexivity|].
  destruct (H t (or_introl eq_refl)) as [[[sh lg]|] E]; rewrite E; cbn [rbind];
    [|eexists; reflexivity].
  apply IH. intros u Hu. apply H. right. exact Hu.
Qed.

Lemma field_loop_total vv data fs :
  (forall n v t, In (n, t) fs -> exists r, vv n v t = ROk r) ->
  exists r, field_loop vv data fs = ROk r.
Proof.
  induction fs as [|[n t] fs IH]; intros H; cbn [field_loop]; [eexists; reflexivity|].
  assert (H' : forall n' v t', In (n', t') fs -> exists r, vv n' v t' = ROk r)
    by (intros n' v t' Hi; apply H; right; exact Hi).
  destruct (dict_get n data) as [v|].
  - destruct (H n v t (or_introl eq_refl)) as [[e|] E]; rewrite E; cbn [rbind];
      [eexists; reflexivity | apply IH; exact H'].
  - destruct (is_optional t); [apply IH; exact H' | eexists; reflexivity].
Qed.

Lemma validate_cross_total cs data :
  Forall (fun c => forall d, exists b, c_pred c d = ROk b) cs ->
  exists r, validate_cross cs data = ROk r.
Proof.
  induction 1 as [|c cs Hc _ IH]; cbn [validate_cross]; [eexists; reflexivity|].
  destruct (Hc data) as [[|] E]; rewrite E; cbn [rbind]; [exact IH | eexists; reflexivity].
Qed.

Lemma validation_total :
  (forall t, total_ty t -> forall key v prefix, exists r, validate_value key v t prefix = ROk r)
  /\ (forall s, total_schema s -> forall d, exists r, validate_with_error s d = ROk r).
Proof.
  set (P := fun t => total_ty t -> forall key v prefix,
              exists r, validate_value key v t prefix = ROk r).
  set (Q := fun s => total_schema s -> forall d, exists r, validate_with_error s d = ROk r).
  assert (Prim : forall t, (forall key v prefix, exists r, validate_value key v t prefix = ROk r) -> P t)
    by (intros t H _; exact H).
  assert (HP : forall t, P t /\ (forall s, Q s)).
  { intros t0. split; [revert t0|].
    all: first [ apply (ty_ind' P Q) | apply (schema_ind' P Q) ].
    all: try (apply Prim; intros key [] prefix; eexists; reflexivity).
    (* TRule *)
    all: try (intros r Ht key v prefix; inversion Ht as [| | | | | |r' Hr| | | | |]; subst;
              destruct (Hr v) as [b E]; cbn [validate_value]; rewrite E; cbn [rbind];
              destruct b; eexists; reflexivity).
    (* TList *)
    all: try (intros e IH Ht key v prefix; inversion Ht as [| | | | | | |e' He| | | |]; subst;
              destruct v; try (eexists; reflexivity);
              cbn [validate_value]; apply list_loop_total;
              intros k w _; apply IH; exact He).
    (* TTuple *)
    all: try (intros ts IH Ht key v prefix; inversion Ht as [| | | | | | | | |ts' Hts| |]; subst;
              assert (Hs : forall k w t, In t ts -> exists r,
                        validate_value k w t prefix = ROk r)
                by (intros k w t Hi;
                    apply (proj1 (Forall_forall _ _) IH t Hi);
                    apply (proj1 (Forall_forall _ _) Hts t Hi));
              destruct v; try (eexists; reflexivity); cbn [validate_value];
              match goal with |- context [Nat.eqb ?a ?b] => destruct (Nat.eqb a b) end;
              try (eexists; reflexivity);
              apply (tuple_loop_total (fun k w t => validate_value k w t prefix) key ts Hs)).
    (* TUnion *)
    all: try (intros ts IH Ht key v prefix; inversion Ht as [| | | | | | | | | |ts' Hts|]; subst;
              assert (Hs : forall t, In t ts -> forall k w, exists r,
                        validate_value k w t prefix = ROk r)
                by (intros t Hi k w;
                    apply (proj1 (Forall_forall _ _) IH t Hi);
                    apply (proj1 (Forall_forall _ _) Hts t Hi));
              destruct ts as [|a [|b [|c ts']]];
              try (apply union_loop_total; intros t Hi; apply Hs; exact Hi);
              cbn [validate_value];
              destruct (is_none_ty a || is_none_ty b);
              [ destruct v; try (eexists; reflexivity);
                destruct (is_none_ty a); apply Hs; simpl; auto
              | apply union_loop_total; intros t Hi; apply Hs; exact Hi ]).
    (* TSchema *)
    all: try (intros s IH Ht key v prefix; inversion Ht as [| | | | | | | | | | |s' Hs]; subst;
              destruct v; try (eexists; reflexivity);
              destruct (IH Hs kv) as [r E]; cbn [validate_value]; rewrite E; cbn [rbind];
              destruct r; eexists; reflexivity).
    (* MkSchema *)
    all: try (intros name fs cs ov IH Hs d; inversion Hs as [name' fs' cs' ov' Hf Hc]; subst;
              rewrite validate_with_error_eq;
              destruct (unexpected_key fs (List.map fst d)); [eexists; reflexivity|];
              destruct (field_loop_total (fun n v t => validate_value n v t "") d fs) as [r E];
              [ intros n v t Hi;
                apply (proj1 (Forall_forall _ _) IH (n, t) Hi);
                [apply (proj1 (Forall_forall _ _) Hf (n, t) Hi)]
              | rewrite E; cbn [rbind]; destruct r;
                [eexists; reflexivity | apply validate_cross_total; exact Hc]]). }
  split; [intros t; apply (proj1 (HP t)) | intros s; apply (proj2 (HP TStr))].
Qed.

(** X6: when every rule's [validate] and every constraint predicate, at
    any depth, returns a boolean, [validate_with_error] returns a result and
    never raises. *)
Theorem validate_with_error_never_raises s d :
  total_schema s -> exists r, validate_with_error s d = ROk r.
Proof. intros H. exact (proj2 validation_total s H d). Qed.

Lemma natural_number_total v : exists b, r_validate NaturalNumber v = ROk b.
Proof. destruct v; eexists; reflexivity. Qed.

Lemma validate_with_error_never_raises_witness :
  total_schema (MkSchema "Counts"
                  [("c", TRule NaturalNumber); ("l", TList TInt);
                   ("n", TSchema Inner); ("o", TUnion [TStr; TNoneType])] [] [])
  /\ exists r, validate_with_error
                 (MkSchema "Counts"
                    [("c", TRule NaturalNumber); ("l", TList TInt);
                     ("n", TSchema Inner); ("o", TUnion [TStr; TNoneType])] [] [])
                 [("c", VStr "three"); ("o", VInt 1)] = ROk r.
Proof.
  assert (T : total_schema (MkSchema "Counts"
                  [("c", TRule NaturalNumber); ("l", TList TInt);
                   ("n", TSchema Inner); ("o", TUnion [TStr; TNoneType])] [] [])).
  { constructor; [|constructor].
    repeat constructor; simpl; exact natural_number_total. }
  split; [exact T|]. apply validate_with_error_never_raises. exact T.
Defined.

(** ** Interval *)

(** X7: the example of [Interval[lo, hi]] passes its own check exactly
    when [lo <= hi]. *)
Theorem interval_example_valid lo hi :
  r_validate (Interval lo hi) (r_example (Interval lo hi)) = ROk (Z.leb lo hi).
Proof.
  cbn [r_validate r_example Interval]. unfold py_le_Z_l, py_le_Z_r. cbn [py_number rbind].
  set (m := ((lo + hi) / 2)%Z).
  assert (D := Z.div_mod (lo + hi) 2 ltac:(lia)).
  assert (B := Z.mod_pos_bound (lo + hi) 2 ltac:(lia)).
  fold m in D.
  assert (LE : forall a b, Qle_bool (inject_Z a) (inject_Z b) = Z.leb a b).
  { intros a b. destruct (Qle_bool (inject_Z a) (inject_Z b)) eqn:E; symmetry.
    - apply Qle_bool_iff in E. rewrite <- Zle_Qle in E. apply Z.leb_le. exact E.
    - apply Z.leb_gt. destruct (Z.le_gt_cases a b) as [H|H]; [|exact H].
      rewrite Zle_Qle in H. apply Qle_bool_iff in H. congruence. }
  rewrite !LE.
  destruct (Z.leb lo m) eqn:E1.
  - apply Z.leb_le in E1. destruct (Z.leb m hi) eqn:E2.
    + apply Z.leb_le in E2. f_equal. symmetry. apply Z.leb_le. lia.
    + apply Z.leb_gt in E2. f_equal. symmetry. apply Z.leb_gt. lia.
  - apply Z.leb_gt in E1. f_equal. symmetry. apply Z.leb_gt. lia.
Qed.


(** ** Dicts and paths *)

Lemma dict_get_set_eq d k v : dict_get k (dict_set d k v) = Some v.
Proof.
  induction d as [|[k' v'] d IH]; simpl.
  - rewrite String.eqb_refl. reflexivity.
  - destruct (String.eqb k' k) eqn:E; simpl; rewrite E; [reflexivity | exact IH].
Qed.

Lemma dict_get_set_neq d k k' v : k' <> k -> dict_get k' (dict_set d k v) = dict_get k' d.
Proof.
  intros Hne. induction d as [|[k0 v0] d IH]; simpl.
  - destruct (String.eqb k k') eqn:E; [apply String.eqb_eq in E; congruence | reflexivity].
  - destruct (String.eqb k0 k) eqn:E; simpl.
    + apply String.eqb_eq in E. subst k0.
      destruct (String.eqb k k') eqn:E'; [apply String.eqb_eq in E'; congruence | reflexivity].
    + destruct (String.eqb k0 k'); [reflexivity | exact IH].
Qed.

Lemma split_dot_aux_not_nil s cur : split_dot_aux s cur <> [].
Proof.
  revert cur; induction s as [|c s IH]; intros cur; simpl; [discriminate|].
  destruct (Ascii.eqb c "."%char); [discriminate | apply IH].
Qed.

Lemma apply_parts_sets parts : forall obj v obj',
  parts <> [] -> apply_parts obj parts v = ROk obj' ->
  get_parts obj' parts = Some v
  /\ forall k, k <> hd "" parts -> dict_get k obj' = dict_get k obj.
Proof.
  induction parts as [|k [|k2 rest] IH]; intros obj v obj' Hne H; [congruence| |].
  - injection H as <-. split; [apply dict_get_set_eq|].
    intros k' Hk'. apply dict_get_set_neq. exact Hk'.
  - change (apply_parts obj (k :: k2 :: rest) v) with
      (match dict_get k obj with
       | None => sub <- apply_parts [] (k2 :: rest) v ;; ROk (dict_set obj k (VDict sub))
       | Some (VDict d) => sub <- apply_parts d (k2 :: rest) v ;; ROk (dict_set obj k (VDict sub))
       | Some _ => match rest with [] => RExn "TypeError" | _ => RExn "AttributeError" end
       end) in H.
    assert (Step : forall d sub, apply_parts d (k2 :: rest) v = ROk sub ->
              obj' = dict_set obj k (VDict sub) ->
              get_parts obj' (k :: k2 :: rest) = Some v
              /\ forall k', k' <> hd "" (k :: k2 :: rest) -> dict_get k' obj' = dict_get k' obj).
    { intros d sub Hs ->. split.
      - change (get_parts (dict_set obj k (VDict sub)) (k :: k2 :: rest)) with
          (match dict_get k (dict_set obj k (VDict sub)) with
           | Some (VDict d') => get_parts d' (k2 :: rest)
           | _ => None
           end).
        rewrite dict_get_set_eq. apply (IH d v sub); [discriminate | exact Hs].
      - intros k' Hk'. apply dict_get_set_neq. exact Hk'. }
    destruct (dict_get k obj) as [[| | | | | | |d]|] eqn:G;
      try (destruct rest; discriminate H).
    + destruct (apply_parts d (k2 :: rest) v) as [sub|e] eqn:A; [|discriminate H].
      injection H as <-. exact (Step d sub A eq_refl).
    + destruct (apply_parts [] (k2 :: rest) v) as [sub|e] eqn:A; [|discriminate H].
      injection H as <-. exact (Step [] sub A eq_refl).
Qed.

(** X8: when [_apply_path] succeeds, the value is found at the dotted
    path in the result, and every top-level key other than the path's
    first part is left as it was. *)
Theorem apply_path_sets obj path v obj' :
  apply_path obj path v = ROk obj' ->
  get_parts obj' (split_dot path) = Some v
  /\ forall k, k <> hd "" (split_dot path) -> dict_get k obj' = dict_get k obj.
Proof.
  unfold apply_path. apply apply_parts_sets. apply split_dot_aux_not_nil.
Qed.

Lemma apply_path_sets_witness :
  apply_path [("n", VDict [("k", VBool true)]); ("x", VInt 42)] "n.w" (VFloat 1)
  = ROk [("n", VDict [("k", VBool true); ("w", VFloat 1)]); ("x", VInt 42)]
  /\ get_parts [("n", VDict [("k", VBool true); ("w", VFloat 1)]); ("x", VInt 42)]
       (split_dot "n.w") = Some (VFloat 1).
Proof.
  split; [reflexivity|].
  exact (proj1 (apply_path_sets [("n", VDict [("k", VBool true)]); ("x", VInt 42)]
                  "n.w" (VFloat 1) _ eq_refl)).
Defined.

Lemma apply_overrides_app ov1 ov2 ex :
  apply_overrides (ov1 ++ ov2)%list ex = (ex' <- apply_overrides ov1 ex ;; apply_overrides ov2 ex').
Proof.
  revert ex. induction ov1 as [|[path v] ov1 IH]; intros ex; simpl; [reflexivity|].
  destruct (apply_path ex path v); simpl; [apply IH | reflexivity].
Qed.

(** X9: the last [__example_overrides__] entry wins: when [example()]
    succeeds, the value it names is found at its path in the example. *)
Theorem example_last_override nm fs cs ov path v ex :
  schema_example (MkSchema nm fs cs (ov ++ [(path, v)])%list) = ROk ex ->
  get_parts ex (split_dot path) = Some v.
Proof.
  intros H. simpl in H. revert H.
  destruct (fields_example example_for_type fs) as [e0|]; [|discriminate]. cbn [rbind].
  destruct (apply_fixes cs e0) as [e1|]; [|discriminate]. cbn [rbind].
  rewrite apply_overrides_app.
  destruct (apply_overrides ov e1) as [e2|]; [|discriminate]. cbn [rbind apply_overrides].
  destruct (apply_path e2 path v) as [e3|] eqn:A; [|discriminate]. cbn [rbind].
  intros H. injection H as <-. exact (proj1 (apply_path_sets _ _ _ _ A)).
Qed.

Lemma example_last_override_witness :
  schema_example (MkSchema "Answer" [("random_number", TRule (Interval 0 10)); ("name", TStr)]
                   [] ([] ++ [("name", VStr "Ben")])%list)
  = ROk [("random_number", VInt 5); ("name", VStr "Ben")]
  /\ get_parts [("random_number", VInt 5); ("name", VStr "Ben")] (split_dot "name")
     = Some (VStr "Ben").
Proof.
  split; [reflexivity|].
  exact (example_last_override "Answer"
           [("random_number", TRule (Interval 0 10)); ("name", TStr)] [] [] "name" (VStr "Ben")
           [("random_number", VInt 5); ("name", VStr "Ben")] eq_refl).
Defined.

(** ** [OneOf] *)

Lemma wf_list l :
  (fix go (l : list value) : Prop :=
     match l with [] => True | x :: l' => wf_value x /\ go l' end) l
  <-> Forall wf_value l.
Proof.
  induction l as [|x l IH]; [split; auto|].
  rewrite Forall_cons_iff, <- IH. reflexivity.
Qed.

Lemma wf_dict (d : dict) :
  (fix go (d : dict) : Prop :=
     match d with [] => True | (_, x) :: d' => wf_value x /\ go d' end) d
  <-> Forall (fun p => wf_value (snd p)) d.
Proof.
  induction d as [|[k x] d IH]; [split; auto|].
  rewrite Forall_cons_iff, <- IH. reflexivity.
Qed.

Lemma list_eqb_refl l :
  Forall (fun x => wf_value x -> py_eq x x = true) l -> Forall wf_value l ->
  list_eqb py_eq l l = true.
Proof.
  induction 1 as [|x l Hx _ IH]; intros W; [reflexivity|].
  inversion W; subst. simpl. rewrite Hx by assumption. apply IH. assumption.
Qed.

Lemma dict_eqb_aux_refl (d : dict) : forall d',
  Forall (fun p => dict_get (fst p) d = Some (snd p) /\ py_eq (snd p) (snd p) = true) d' ->
  dict_eqb_aux py_eq d' d = true.
Proof.
  induction d' as [|[k x] d' IH]; intros H; [reflexivity|].
  inversion H as [|? ? [G E] H']; subst. simpl in G, E |- *. rewrite G, E. apply IH. exact H'.
Qed.

Lemma py_eq_refl v : wf_value v -> py_eq v v = true.
Proof.
  revert v. apply (value_ind' (fun v => wf_value v -> py_eq v v = true)).
  - reflexivity.
  - intros b _. apply Qeq_bool_iff. reflexivity.
  - intros z _. apply Qeq_bool_iff. reflexivity.
  - intros q _. apply Qeq_bool_iff. reflexivity.
  - intros s _. apply String.eqb_refl.
  - intros l IH W. apply list_eqb_refl; [exact IH | apply wf_list; exact W].
  - intros l IH W. apply list_eqb_refl; [exact IH | apply wf_list; exact W].
  - intros d IH [N W]. apply wf_dict in W. simpl.
    rewrite Nat.eqb_refl. simpl. apply dict_eqb_aux_refl.
    apply Forall_forall. intros [k x] Hin. split.
    + apply dict_get_nodup; assumption.
    + apply (proj1 (Forall_forall _ _) IH (k, x) Hin).
      apply (proj1 (Forall_forall _ _) W (k, x) Hin).
Qed.

(** X10: for parameters with distinct dict keys, the example of
    [OneOf[params]] (any draw of [random.choice]) passes [OneOf.validate]. *)
Theorem oneof_example_valid params r v :
  Forall wf_value params ->
  OneOf_example params r = ROk v -> OneOf_validate params v = ROk true.
Proof.
  intros W H. unfold OneOf_example in H.
  destruct params as [|p ps]; [discriminate H|]. injection H as <-.
  set (params := p :: ps) in *.
  assert (L : (r mod List.length params < List.length params)%nat)
    by (apply Nat.mod_upper_bound; simpl; discriminate).
  pose proof (nth_In params VNone L) as Hin.
  unfold OneOf_validate. f_equal. apply existsb_exists.
  eexists; split; [exact Hin|]. apply py_eq_refl.
  apply (proj1 (Forall_forall _ _) W _ Hin).
Qed.

Lemma oneof_example_valid_witness :
  OneOf_example [VStr "red"; VStr "green"; VInt 3] 4 = ROk (VStr "green")
  /\ OneOf_validate [VStr "red"; VStr "green"; VInt 3] (VStr "green") = ROk true.
Proof.
  split; [reflexivity|].
  apply (oneof_example_valid _ 4); [repeat constructor | reflexivity].
Defined.

(** ** [AutoRepair._parts] and [AutoRepair._extract] *)

Lemma replace_char_app c rep a b :
  replace_char c rep (a ++ b) = replace_char c rep a ++ replace_char c rep b.
Proof.
  induction a as [|x a IH]; simpl; [reflexivity|].
  destruct (Ascii.eqb x c); rewrite IH; [|reflexivity].
  symmetry. apply str_app_assoc.
Qed.

Lemma split_dot_aux_app a b : forall cur,
  split_dot_aux (a ++ String "."%char b) cur = (split_dot_aux a cur ++ split_dot_aux b EmptyString)%list.
Proof.
  induction a as [|x a IH]; intros cur; simpl; [reflexivity|].
  destruct (Ascii.eqb x "."%char); [rewrite IH; reflexivity | apply IH].
Qed.

Lemma parts_app p q : _parts (p ++ "." ++ q) = (_parts p ++ _parts q)%list.
Proof.
  unfold _parts. rewrite !replace_char_app.
  change (replace_char "["%char "." (replace_char "]"%char "" ".")) with ".".
  cbn [append]. unfold split_dot. rewrite split_dot_aux_app. apply filter_app.
Qed.

Lemma extract_parts_app ps qs : forall d,
  extract_parts d (ps ++ qs) = (c <- extract_parts d ps ;; extract_parts c qs).
Proof.
  induction ps as [|p ps IH]; intros d; simpl; [reflexivity|].
  destruct (py_index d p); simpl; [apply IH | reflexivity].
Qed.

(** X11: [_extract] along [p.q] is [_extract] along [p], then along [q]
    from what was found; an error along [p] is the result. *)
Theorem extract_compose d p q :
  _extract d (p ++ "." ++ q) = (c <- _extract d p ;; _extract c q).
Proof. unfold _extract. rewrite parts_app. apply extract_parts_app. Qed.

Lemma all_chars_replace f c rep s :
  all_chars f s = true -> f c = false -> replace_char c rep s = s.
Proof.
  intros H Hc. induction s as [|x s IH]; simpl; [reflexivity|].
  simpl in H. apply andb_prop in H. destruct H as [Hx Hs].
  destruct (Ascii.eqb x c) eqn:E.
  - apply Ascii.eqb_eq in E. subst. congruence.
  - rewrite IH by exact Hs. reflexivity.
Qed.

Lemma split_dot_aux_nodot s : forall cur,
  all_chars is_digit_char s = true -> split_dot_aux s cur = [cur ++ s].
Proof.
  induction s as [|x s IH]; intros cur H; simpl.
  - f_equal. induction cur as [|y cur IHc]; simpl; [reflexivity | rewrite <- IHc; reflexivity].
  - simpl in H. apply andb_prop in H. destruct H as [Hx Hs].
    destruct (Ascii.eqb x "."%char) eqn:E.
    + apply Ascii.eqb_eq in E. subst. discriminate Hx.
    + rewrite IH by exact Hs. rewrite str_app_assoc. reflexivity.
Qed.

Lemma parts_digits k : py_isdigit k = true -> _parts k = [k].
Proof.
  intros H. destruct k as [|c k']; [discriminate H|].
  unfold py_isdigit in H. unfold _parts.
  rewrite (all_chars_replace is_digit_char "]"%char EmptyString _ H) by reflexivity.
  rewrite (all_chars_replace is_digit_char "["%char "." _ H) by reflexivity.
  unfold split_dot. rewrite split_dot_aux_nodot by exact H. reflexivity.
Qed.

(** X12: a key made of digits is never reached in a dict: [_extract]
    turns it into an integer index and fails with [KeyError] (or
    [ValueError] for a digit [int] does not read), also on any longer path
    starting with it. *)
Theorem extract_digit_key_unreachable d k q :
  py_isdigit k = true ->
  exists e, (e = "KeyError" \/ e = "ValueError")
            /\ _extract (VDict d) k = RExn e /\ _extract (VDict d) (k ++ "." ++ q) = RExn e.
Proof.
  intros H. rewrite extract_compose. unfold _extract at 1 2. rewrite parts_digits by exact H.
  simpl. unfold py_index. rewrite H.
  destruct (py_int_str k) as [n|e] eqn:E; simpl.
  - exists "KeyError". auto.
  - exists e. unfold py_int_str in E. destruct (all_chars is_ascii_digit k); [discriminate E|].
    injection E as <-. auto.
Qed.

Lemma extract_digit_key_unreachable_witness :
  py_isdigit "3" = true
  /\ _extract (VDict [("3", VStr "three")]) "3" = RExn "KeyError"
  /\ exists e, (e = "KeyError" \/ e = "ValueError")
               /\ _extract (VDict [("3", VStr "three")]) "3" = RExn e
               /\ _extract (VDict [("3", VStr "three")]) ("3" ++ "." ++ "x") = RExn e.
Proof.
  split; [reflexivity|]. split; [reflexivity|].
  exact (extract_digit_key_unreachable [("3", VStr "three")] "3" "x" eq_refl).
Defined.

(** ** [_temp_attrs] *)

Section TempAttrsProps.
Context {A R : Type}.
Implicit Types (o patch : list (string * A)).

Lemma getattr_setattr_eq o k v : getattr k (setattr o k v) = Some v.
Proof.
  induction o as [|[k' v'] o IH]; simpl.
  - rewrite String.eqb_refl. reflexivity.
  - destruct (String.eqb k' k) eqn:E; simpl; rewrite E; [reflexivity | exact IH].
Qed.

Lemma getattr_setattr_neq o k k' v : k' <> k -> getattr k' (setattr o k v) = getattr k' o.
Proof.
  intros Hne. induction o as [|[k0 v0] o IH]; simpl.
  - destruct (String.eqb k k') eqn:E; [apply String.eqb_eq in E; congruence | reflexivity].
  - destruct (String.eqb k0 k) eqn:E; simpl.
    + apply String.eqb_eq in E. subst k0.
      destruct (String.eqb k k') eqn:E'; [apply String.eqb_eq in E'; congruence | reflexivity].
    + destruct (String.eqb k0 k'); [reflexivity | exact IH].
Qed.

Lemma getattr_not_in k o : ~ In k (List.map fst o) -> getattr k o = None.
Proof.
  induction o as [|[k' v] o IH]; intros H; simpl; [reflexivity|].
  simpl in H. destruct (String.eqb k' k) eqn:E.
  - apply String.eqb_eq in E. tauto.
  - apply IH. tauto.
Qed.

Lemma getattr_in k o : In k (List.map fst o) -> exists v, getattr k o = Some v.
Proof.
  induction o as [|[k' v] o IH]; intros H; simpl; [destruct H|].
  destruct (String.eqb k' k) eqn:E; [eauto|].
  simpl in H. destruct H as [->|H]; [rewrite String.eqb_refl in E; discriminate E | auto].
Qed.

Lemma set_attrs_cons o k v patch :
  set_attrs o ((k, v) :: patch) = set_attrs (setattr o k v) patch.
Proof. reflexivity. Qed.

Lemma getattr_set_attrs k patch : forall o,
  NoDup (List.map fst patch) ->
  getattr k (set_attrs o patch) =
  match getattr k patch with Some v => Some v | None => getattr k o end.
Proof.
  induction patch as [|[k1 v1] patch IH]; intros o N; [reflexivity|].
  rewrite set_attrs_cons. inversion N as [|? ? Hn N']; subst.
  rewrite IH by exact N'. simpl. destruct (String.eqb k1 k) eqn:E.
  - apply String.eqb_eq in E. subst k1.
    rewrite getattr_not_in by exact Hn. apply getattr_setattr_eq.
  - destruct (getattr k patch); [reflexivity|].
    apply getattr_setattr_neq. intros ->. rewrite String.eqb_refl in E. discriminate E.
Qed.

(** Restoring what was saved: each saved key gets back the value read
    from the object, whatever happened in between. *)
Lemma getattr_restore k saved o0 : forall o,
  Forall (fun kv => getattr (fst kv) o0 = Some (snd kv)) saved ->
  getattr k (set_attrs o saved) =
  if in_dec string_dec k (List.map fst saved) then getattr k o0 else getattr k o.
Proof.
  induction saved as [|[k1 v1] saved IH]; intros o F; [reflexivity|].
  rewrite set_attrs_cons. inversion F as [|? ? F1 F']; subst. simpl in F1.
  rewrite IH by exact F'. simpl.
  destruct (in_dec string_dec k (List.map fst saved)) as [I|I];
    destruct (string_dec k1 k) as [->|Hne]; try reflexivity.
  - rewrite getattr_setattr_eq. congruence.
  - apply getattr_setattr_neq. congruence.
Qed.

Lemma saved_attrs_ok patch o :
  Forall (fun kv => getattr (fst kv) o <> None) patch ->
  exists saved, saved_attrs patch o = ROk saved
                /\ List.map fst saved = List.map fst patch
                /\ Forall (fun kv => getattr (fst kv) o = Some (snd kv)) saved.
Proof.
  induction 1 as [|[k v] patch Hk _ IH]; [exists []; auto|].
  destruct IH as [saved [E [M F]]]. simpl in Hk |- *.
  destruct (getattr k o) as [w|] eqn:G; [|congruence].
  rewrite E. simpl. exists ((k, w) :: saved). split; [reflexivity|].
  split; [simpl; rewrite M; reflexivity | constructor; assumption].
Qed.

Lemma saved_attrs_missing patch o k v :
  In (k, v) patch -> getattr k o = None -> saved_attrs patch o = RExn "AttributeError".
Proof.
  induction patch as [|[k1 v1] patch IH]; intros Hin G; [destruct Hin|].
  simpl. destruct (getattr k1 o) as [w|] eqn:G1; [|reflexivity].
  destruct Hin as [Heq|Hin].
  - injection Heq as -> ->. congruence.
  - rewrite (IH Hin G). reflexivity.
Qed.

(** X13: when a patched attribute is missing from an object (not
    [None]), [_temp_attrs] raises [AttributeError] before the block runs
    and leaves the object unchanged. *)
Theorem temp_attrs_missing_attr patch body o k v :
  In (k, v) patch -> getattr k o = None ->
  _temp_attrs (R := R) patch body (Some o) = (Some o, RExn "AttributeError").
Proof.
  intros Hin G. destruct patch as [|p patch']; [destruct Hin|].
  unfold _temp_attrs. rewrite (saved_attrs_missing _ o k v Hin G). reflexivity.
Qed.

(** X14: on an object (not [None]) that has every patched attribute, the
    block runs on the object with the patch applied; afterwards each
    patched attribute has its original value again, every other attribute
    keeps what the block left, and the block's result or exception is
    passed through. *)
Theorem temp_attrs_restores patch
    (body : option (list (string * A)) -> option (list (string * A)) * result R) o :
  NoDup (List.map fst patch) ->
  Forall (fun kv => getattr (fst kv) o <> None) patch ->
  exists oin,
    (forall k, getattr k oin = match getattr k patch with Some v => Some v | None => getattr k o end)
    /\ exists restore,
         _temp_attrs patch body (Some o)
         = (option_map restore (fst (body (Some oin))), snd (body (Some oin)))
         /\ forall o2 k, getattr k (restore o2) =
                         if in_dec string_dec k (List.map fst patch) then getattr k o
                         else getattr k o2.
Proof.
  intros N F. exists (set_attrs o patch). split.
  - intros k. apply getattr_set_attrs. exact N.
  - destruct patch as [|p patch'].
    + exists (fun o2 => o2). split; [|reflexivity].
      unfold _temp_attrs. simpl.
      destruct (body (Some o)) as [[o2|] r]; reflexivity.
    + destruct (saved_attrs_ok _ o F) as [saved [E [M Fs]]].
      exists (fun o2 => set_attrs o2 saved). split.
      * unfold _temp_attrs. rewrite E.
        destruct (body (Some (set_attrs o (p :: patch')))) as [o2 r]. reflexivity.
      * intros o2 k. rewrite (getattr_restore k saved o o2 Fs). rewrite M. reflexivity.
Qed.

End TempAttrsProps.

Lemma temp_attrs_missing_attr_witness :
  _temp_attrs [("retries", 5%nat)]
    (fun o => (option_map (fun o' => setattr o' "retries" 0%nat) o, ROk true))
    (Some [("max_retries", 3%nat)]) = (Some [("max_retries", 3%nat)], RExn "AttributeError").
Proof.
  apply (temp_attrs_missing_attr _ _ _ "retries" 5%nat); [left; reflexivity | reflexivity].
Defined.

Lemma temp_attrs_restores_witness :
  _temp_attrs [("max_retries", 5%nat)]
    (fun o => (option_map (fun o' => setattr o' "calls" 1%nat) o,
               ROk (option_map (getattr "max_retries") o)))
    (Some [("max_retries", 3%nat); ("calls", 0%nat)])
  = (Some [("max_retries", 3%nat); ("calls", 1%nat)], ROk (Some (Some 5%nat)))
  /\ exists oin,
    (forall k, getattr k oin = match getattr k [("max_retries", 5%nat)] with
                               | Some v => Some v
                               | None => getattr k [("max_retries", 3%nat); ("calls", 0%nat)] end)
    /\ exists restore,
         _temp_attrs [("max_retries", 5%nat)]
           (fun o => (option_map (fun o' => setattr o' "calls" 1%nat) o,
                      ROk (option_map (getattr "max_retries") o)))
           (Some [("max_retries", 3%nat); ("calls", 0%nat)])
         = (option_map restore (Some (setattr oin "calls" 1%nat)),
            ROk (Some (getattr "max_retries" oin)))
         /\ forall o2 k, getattr k (restore o2) =
                         if in_dec string_dec k (List.map fst [("max_retries", 5%nat)])
                         then getattr k [("max_retries", 3%nat); ("calls", 0%nat)]
                         else getattr k o2.
Proof.
  split; [reflexivity|].
  apply (temp_attrs_restores [("max_retries", 5%nat)]
           (fun o => (option_map (fun o' => setattr o' "calls" 1%nat) o,
                      ROk (option_map (getattr "max_retries") o)))
           [("max_retries", 3%nat); ("calls", 0%nat)]).
  - repeat constructor. intros [].
  - repeat constructor. discriminate.
Defined.

Section StrategyExtras.
Context {C : Collab}.
Local Open Scope nat_scope.
Local Open Scope list_scope.

Ltac mstep H s1 x E :=
  match type of H with
  | mbind ?m ?k ?s0 = _ =>
      destruct (m s0) as [s1 [x|x]] eqn:E;
      [rewrite (mbind_ok m k s0 s1 x E) in H; cbv beta in H
      |rewrite (mbind_exn m k s0 s1 x E) in H]
  end.

Lemma ask_locs_app t1 t2 : ask_locs (t1 ++ t2) = ask_locs t1 ++ ask_locs t2.
Proof. induction t1 as [|[] t1 IH]; simpl; try rewrite IH; reflexivity. Qed.

Lemma ask_locs_only_asks a new : only_asks a new -> length (ask_locs new) = length new.
Proof. induction 1 as [|ev new [txt [l ->]] _ IH]; simpl; auto. Qed.

Lemma nth_error_update_nth_eq {A} (h : list A) n x :
  n < length h -> nth_error (update_nth h n x) n = Some x.
Proof.
  revert n; induction h as [|y h IH]; intros [|n] Hn; simpl in *; try lia; auto.
  apply IH. lia.
Qed.

Lemma uses_schema_prompt S s : uses_schema S s -> p_schema (prompt_of s) = S.
Proof. induction s; simpl; tauto. Qed.

Lemma run_base_more p a r tm s s' res :
  run_base p a r tm s = (s', res) ->
  exists new ext, trace s' = trace s ++ new /\ heap s' = heap s ++ ext /\
    length (ask_locs new) <= S r /\
    (forall l e1 e2, res = ROk (l, true, e1, e2) ->
       validate_at p s' l = ROk None /\ e1 = None /\ e2 = None) /\
    (forall l e1 e2, res = ROk (l, false, e1, e2) ->
       exists sh lg, validate_at p s' l = ROk (Some (sh, lg)) /\ e1 = Some sh /\ e2 = Some lg).
Proof.
  unfold run_base, mbind, lift. destruct (render p tm) as [txt|e].
  - intros H. destruct (base_loop_spec p a txt r s s' res H)
      as [new [ext [T [Hh [F [L [OK KO]]]]]]].
    exists new, ext. split; [exact T|]. split; [exact Hh|].
    split.
    { rewrite (ask_locs_only_asks a); [exact L|].
      eapply Forall_impl; [|exact F]. intros ev [l ->]. eauto. }
    split.
    + intros l e1 e2 Hr. destruct (OK l e1 e2 Hr) as [E1 [E2 [_ [_ [V _]]]]]. auto.
    + intros l e1 e2 Hr. destruct (KO l e1 e2 Hr) as [_ [_ [sh [lg [_ [V [E1 [E2 _]]]]]]]].
      eauto.
  - intros H. injection H as <- <-. exists [], [].
    rewrite !app_nil_r. split; [reflexivity|]. split; [reflexivity|].
    split; [simpl; lia|]. split; intros l e1 e2 Hr; discriminate Hr.
Qed.

Lemma repair_more i p rr mode tm repl : forall depth s s' res,
  repair i p rr mode tm repl depth s = (s', res) ->
  exists new, trace s' = trace s ++ new /\ length (ask_locs new) <= depth * S rr /\
    (res = ROk true -> exists d, nth_error (heap s') repl = Some d
                                 /\ validate_with_error (p_schema p) d = ROk None).
Proof.
  induction depth as [|d IH]; intros s s' res H.
  - cbn [repair] in H. injection H as <- <-. exists [].
    rewrite app_nil_r. split; [reflexivity|]. split; [simpl; lia | discriminate].
  - cbn [repair] in H.
    assert (Stay : forall e, (s, RExn e) = (s', res) ->
      exists new, trace s' = trace s ++ new /\ length (ask_locs new) <= S d * S rr /\
        (res = ROk true -> exists d0, nth_error (heap s') repl = Some d0
                                      /\ validate_with_error (p_schema p) d0 = ROk None)).
    { intros e E. injection E as <- <-. exists []. rewrite app_nil_r.
      split; [reflexivity|]. split; [simpl; lia | discriminate]. }
    assert (ReadS : forall l s1 (x : result dict), read l s = (s1, x) -> s1 = s)
      by (intros l s1 x E; unfold read in E; destruct (nth_error (heap s) l); congruence).
    mstep H s1 v E1.
    2:{ unfold validate_loc, mbind, read, lift in E1.
        destruct (nth_error (heap s) repl); injection E1 as <- _; exact (Stay _ H). }
    unfold validate_loc, mbind, read, lift in E1.
    destruct (nth_error (heap s) repl) as [d0|] eqn:Rd; [|discriminate E1].
    injection E1 as <- Ev.
    assert (Lr : repl < length (heap s))
      by (apply nth_error_Some; rewrite Rd; discriminate).
    destruct v as [e|]; cbv beta iota in H.
    2:{ injection H as <- <-. exists []. rewrite app_nil_r.
        split; [reflexivity|]. split; [simpl; lia|]. intros _. eauto. }
    mstep H s1 cur E2; apply ReadS in E2; subst s1; [|exact (Stay _ H)].
    mstep H s1 txt E3;
      (assert (s1 = s) by (destruct (String.eqb mode "sub");
                             [|destruct (render p tm)]; unfold mret, lift, mbind in E3;
                             cbv beta iota in E3; congruence);
       subst s1); [|exact (Stay _ H)].
    mstep H s1 a1 E4; unfold lift in E4; injection E4 as <- _; [|exact (Stay _ H)].
    mstep H s1 u E5; unfold emit in E5; [injection E5 as <- _ | discriminate E5].
    mstep H s2 o Rb.
    all: destruct (run_base_more _ _ _ _ _ _ _ Rb) as [new1 [ext1 [T1 [H1 [A1 [OK1 _]]]]]];
      simpl in T1, H1.
    2:{ injection H as <- <-. exists (ERepair (S d) :: new1).
        rewrite T1, <- app_assoc. split; [reflexivity|].
        split; [simpl; lia | discriminate]. }
    destruct o as [[[nl [|]] x1] x2]; cbv beta iota in H.
    + destruct (OK1 nl x1 x2 eq_refl) as [Vn _].
      unfold validate_at in Vn. simpl in Vn.
      mstep H s3 nd E6; unfold read in E6;
        destruct (nth_error (heap s2) nl) as [d1|] eqn:Rn; try discriminate E6;
        injection E6 as <- E6.
      * mstep H s4 u7 E7; unfold write in E7; [injection E7 as <- _ | discriminate E7].
        unfold mret in H. injection H as <- <-.
        exists (ERepair (S d) :: new1). simpl. rewrite T1, <- app_assoc.
        split; [reflexivity|]. split; [simpl; lia|].
        intros _. exists nd. subst nd. split; [|exact Vn].
        apply nth_error_update_nth_eq. rewrite H1, length_app. lia.
      * injection H as <- <-. exists (ERepair (S d) :: new1).
        rewrite T1, <- app_assoc. split; [reflexivity|].
        split; [simpl; lia | discriminate].
    + destruct (IH s2 s' res H) as [new2 [T2 [A2 V2]]].
      exists (ERepair (S d) :: new1 ++ new2).
      rewrite T2, T1, <- !app_assoc. split; [reflexivity|].
      split; [simpl; rewrite ask_locs_app, length_app; lia | exact V2].
Qed.


Lemma run_frame_asks s : forall tm st0 st' res,
  run s tm st0 = (st', res) ->
  exists new, trace st' = trace st0 ++ new /\ length (ask_locs new) <= max_asks s /\
    length (heap st0) <= length (heap st') /\
    (forall l, l < length (heap st0) -> nth_error (heap st') l = nth_error (heap st0) l).
Proof.
  induction s as [id p a r | id i IHi f IHf | id i IHi d mode rr];
    intros tm st0 st' res H.
  - cbn [run] in H. unfold mbind at 1, emit in H.
    destruct (run_base_more _ _ _ _ _ _ _ H) as [new [ext [T [Hh [A _]]]]].
    simpl in T, Hh. exists (ECall id :: new).
    rewrite T, <- app_assoc. split; [reflexivity|]. split; [exact A|].
    split; [rewrite Hh, length_app; lia|].
    intros l Hl. rewrite Hh. apply nth_error_app1. exact Hl.
  - cbn [run] in H. unfold mbind at 1, emit in H. fold (enter id st0) in H.
    unfold mbind at 1 in H.
    destruct (run i tm (enter id st0)) as [s1 r1] eqn:R1.
    destruct (IHi tm _ _ _ R1) as [new1 [T1 [A1 [L1 P1]]]]. simpl in T1, L1, P1.
    destruct r1 as [[[[reply ok] e1] e2]|e].
    + destruct ok.
      * unfold mret in H. injection H as <- <-.
        exists (ECall id :: new1). rewrite T1, <- app_assoc.
        split; [reflexivity|]. split; [simpl; lia|]. auto.
      * destruct (IHf tm _ _ _ H) as [new2 [T2 [A2 [L2 P2]]]].
        exists (ECall id :: new1 ++ new2). rewrite T2, T1, <- !app_assoc.
        split; [reflexivity|].
        split; [simpl; rewrite ask_locs_app, length_app; lia|].
        split; [lia|]. intros l Hl. rewrite P2, P1 by lia. reflexivity.
    + injection H as <- <-. exists (ECall id :: new1). rewrite T1, <- app_assoc.
      split; [reflexivity|]. split; [simpl; lia|]. auto.
  - rewrite run_autorepair_eq in H.
    destruct (run i tm (enter id st0)) as [s1 r1] eqn:R1.
    destruct (IHi tm _ _ _ R1) as [new1 [T1 [A1 [L1 P1]]]]. simpl in T1, L1, P1.
    assert (Here : forall s', s' = s1 ->
      exists new, trace s' = trace st0 ++ new /\ length (ask_locs new) <= max_asks (SAutoRepair id i d mode rr) /\
        length (heap st0) <= length (heap s') /\
        (forall l, l < length (heap st0) -> nth_error (heap s') l = nth_error (heap st0) l)).
    { intros s' ->. exists (ECall id :: new1). rewrite T1, <- app_assoc.
      split; [reflexivity|]. split; [simpl; lia|]. auto. }
    destruct r1 as [[[[reply ok] e1] e2]|e]; [|injection H as Hs _; apply Here; congruence].
    destruct (ok || Nat.eqb d 0); [injection H as Hs _; apply Here; congruence|].
    destruct (nth_error (heap s1) reply) as [cur|]; [|injection H as Hs _; apply Here; congruence].
    destruct (repair i (prompt_of i) rr mode tm (length (heap s1)) d
                (MkSt (heap s1 ++ [cur]) (trace s1))) as [s3 r3] eqn:R3.
    destruct (repair_more _ _ _ _ _ _ _ _ _ _ R3) as [new2 [T2 [A2 _]]].
    destruct (repair_spec _ _ _ _ _ _ _ _ _ _ R3) as [new3 [_ [_ [_ [_ [L3 P3]]]]]].
    simpl in T2, L3, P3. rewrite length_app in L3. simpl in L3.
    assert (Fin : exists new, trace s3 = trace st0 ++ new /\
        length (ask_locs new) <= max_asks (SAutoRepair id i d mode rr) /\
        length (heap st0) <= length (heap s3) /\
        (forall l, l < length (heap st0) -> nth_error (heap s3) l = nth_error (heap st0) l)).
    { exists (ECall id :: new1 ++ new2). rewrite T2, T1, <- !app_assoc.
      split; [reflexivity|].
      split; [simpl; rewrite ask_locs_app, length_app; lia|].
      split; [lia|]. intros l Hl.
      rewrite P3 by (rewrite ?length_app; simpl; lia).
      simpl. rewrite nth_error_app1 by lia. apply P1. exact Hl. }
    destruct r3 as [[|]|e]; injection H as Hs _; subst st'; exact Fin.
Qed.

(** X15: a strategy call never changes an object that existed before the
    call: the heap only grows and its old cells are left as they were. *)
Theorem run_preserves_existing_objects s tm st0 st' res :
  run s tm st0 = (st', res) ->
  length (heap st0) <= length (heap st') /\
  forall l, l < length (heap st0) -> nth_error (heap st') l = nth_error (heap st0) l.
Proof.
  intros H. destruct (run_frame_asks s tm st0 st' res H) as [_ [_ [_ [L P]]]]. auto.
Qed.

(** X16: a strategy call makes at most [max_asks s] generator calls:
    [retries + 1] per [BaseStrategy], and for an [AutoRepair] the inner
    strategy's calls plus [repair_retries + 1] per repair round. *)
Theorem run_generator_calls_bounded s tm st0 st' res :
  run s tm st0 = (st', res) ->
  exists new, trace st' = trace st0 ++ new /\ length (ask_locs new) <= max_asks s.
Proof.
  intros H. destruct (run_frame_asks s tm st0 st' res H) as [new [T [A _]]]. eauto.
Qed.

(** X17: when every [BaseStrategy] inside uses schema [S], the returned
    reply exists and agrees with the flag: on success it validates under
    [S] and both errors are [None]; on failure its validation errors are
    the returned pair. *)
Theorem run_outcome_consistent S s :
  uses_schema S s ->
  forall tm st0 st' l ok e1 e2,
  run s tm st0 = (st', ROk (l, ok, e1, e2)) ->
  exists d, nth_error (heap st') l = Some d /\
    if ok then validate_with_error S d = ROk None /\ e1 = None /\ e2 = None
    else exists sh lg, validate_with_error S d = ROk (Some (sh, lg)) /\ e1 = Some sh /\ e2 = Some lg.
Proof.
  induction s as [id p a r | id i IHi f IHf | id i IHi d mode rr];
    intros U tm st0 st' l ok e1 e2 H; simpl in U.
  - cbn [run] in H. unfold mbind at 1, emit in H.
    destruct (run_base_more _ _ _ _ _ _ _ H) as [new [ext [_ [_ [_ [OK KO]]]]]].
    unfold validate_at in OK, KO. rewrite U in OK, KO.
    destruct ok.
    + destruct (OK l e1 e2 eq_refl) as [V [E1 E2]].
      destruct (nth_error (heap st') l) as [d|]; [|discriminate V].
      exists d. split; [reflexivity|]. simpl. auto.
    + destruct (KO l e1 e2 eq_refl) as [sh [lg [V [E1 E2]]]].
      destruct (nth_error (heap st') l) as [d|]; [|discriminate V].
      exists d. split; [reflexivity|]. simpl. eauto.
  - destruct U as [Ui Uf].
    cbn [run] in H. unfold mbind at 1, emit in H. fold (enter id st0) in H.
    unfold mbind at 1 in H.
    destruct (run i tm (enter id st0)) as [s1 r1] eqn:R1.
    destruct r1 as [[[[reply ok1] x1] x2]|e]; [|discriminate H].
    destruct ok1.
    + unfold mret in H. injection H; intros; subst. exact (IHi Ui _ _ _ _ _ _ _ R1).
    + exact (IHf Uf _ _ _ _ _ _ _ H).
  - rewrite run_autorepair_eq in H.
    destruct (run i tm (enter id st0)) as [s1 r1] eqn:R1.
    destruct r1 as [[[[reply ok1] x1] x2]|e]; [|discriminate H].
    destruct (ok1 || Nat.eqb d 0).
    { injection H; intros; subst. exact (IHi U _ _ _ _ _ _ _ R1). }
    destruct (nth_error (heap s1) reply) as [cur|] eqn:Rc; [|discriminate H].
    destruct (repair i (prompt_of i) rr mode tm (length (heap s1)) d
                (MkSt (heap s1 ++ [cur]) (trace s1))) as [s3 r3] eqn:R3.
    destruct r3 as [[|]|e]; [| |discriminate H].
    + injection H; intros; subst.
      destruct (repair_more _ _ _ _ _ _ _ _ _ _ R3) as [new2 [_ [_ V]]].
      destruct (V eq_refl) as [dd [N Vd]]. rewrite (uses_schema_prompt S i U) in Vd.
      exists dd. simpl. auto.
    + injection H; intros; subst.
      destruct (IHi U _ _ _ _ _ _ _ R1) as [dd [N P]].
      destruct (repair_spec _ _ _ _ _ _ _ _ _ _ R3) as [new3 [_ [_ [_ [_ [_ P3]]]]]].
      assert (Lr : l < length (heap s1)) by (apply nth_error_Some; rewrite N; discriminate).
      exists dd. split; [|exact P].
      rewrite P3 by (simpl; rewrite ?length_app; simpl; lia).
      simpl. rewrite nth_error_app1 by exact Lr. exact N.
Qed.

End StrategyExtras.

Section StrategyExtrasDemo.
Local Open Scope nat_scope.
Local Open Scope list_scope.

Lemma run_preserves_existing_objects_witness :
  nth_error (heap (fst (@run demo_collab (SAutoRepair 2 demo_base 2 "full" 0) []
                          (MkSt [[("x", VInt 7)]] [])))) 0 = Some [("x", VInt 7)]
  /\ length (heap (MkSt [[("x", VInt 7)]] [])) <=
     length (heap (fst (@run demo_collab (SAutoRepair 2 demo_base 2 "full" 0) []
                          (MkSt [[("x", VInt 7)]] []))))
  /\ forall l, l < length (heap (MkSt [[("x", VInt 7)]] [])) ->
     nth_error (heap (fst (@run demo_collab (SAutoRepair 2 demo_base 2 "full" 0) []
                             (MkSt [[("x", VInt 7)]] [])))) l
     = nth_error (heap (MkSt [[("x", VInt 7)]] [])) l.
Proof.
  split; [vm_compute; reflexivity|].
  exact (@run_preserves_existing_objects demo_collab (SAutoRepair 2 demo_base 2 "full" 0) []
           (MkSt [[("x", VInt 7)]] [])
           (fst (@run demo_collab (SAutoRepair 2 demo_base 2 "full" 0) [] (MkSt [[("x", VInt 7)]] [])))
           (snd (@run demo_collab (SAutoRepair 2 demo_base 2 "full" 0) [] (MkSt [[("x", VInt 7)]] [])))
           ltac:(vm_compute; reflexivity)).
Defined.

Lemma run_generator_calls_bounded_witness :
  length (ask_locs (trace (fst (@run demo_collab (SAutoRepair 2 demo_base 2 "full" 0) [] empty_st))))
  = 3
  /\ max_asks (SAutoRepair 2 demo_base 2 "full" 0) = 3
  /\ exists new,
       trace (fst (@run demo_collab (SAutoRepair 2 demo_base 2 "full" 0) [] empty_st))
       = trace empty_st ++ new
       /\ length (ask_locs new) <= max_asks (SAutoRepair 2 demo_base 2 "full" 0).
Proof.
  split; [vm_compute; reflexivity|]. split; [reflexivity|].
  exact (@run_generator_calls_bounded demo_collab (SAutoRepair 2 demo_base 2 "full" 0) [] empty_st
           (fst (@run demo_collab (SAutoRepair 2 demo_base 2 "full" 0) [] empty_st))
           (snd (@run demo_collab (SAutoRepair 2 demo_base 2 "full" 0) [] empty_st))
           ltac:(vm_compute; reflexivity)).
Defined.

Lemma run_outcome_consistent_witness :
  uses_schema RandomNumbers (SAutoRepair 2 demo_base 2 "full" 0)
  /\ snd (@run demo_collab (SAutoRepair 2 demo_base 2 "full" 0) [] empty_st)
     = ROk (0, false, Some demo_short, Some demo_long)
  /\ exists d, nth_error (heap (fst (@run demo_collab (SAutoRepair 2 demo_base 2 "full" 0) []
                                     empty_st))) 0 = Some d
       /\ exists sh lg, validate_with_error RandomNumbers d = ROk (Some (sh, lg))
                        /\ Some demo_short = Some sh /\ Some demo_long = Some lg.
Proof.
  split; [reflexivity|]. split; [vm_compute; reflexivity|].
  exact (@run_outcome_consistent demo_collab RandomNumbers (SAutoRepair 2 demo_base 2 "full" 0)
           eq_refl [] empty_st
           (fst (@run demo_collab (SAutoRepair 2 demo_base 2 "full" 0) [] empty_st))
           0 false (Some demo_short) (Some demo_long)
           ltac:(vm_compute; reflexivity)).
Defined.

End StrategyExtrasDemo.

